(** * PyBGL: the visitor-driven traversal engine of [breadth_first_search.py]
    and the shortest-path relaxation of [dijkstra_shortest_paths].

    The development embeds [breadth_first_search_graph] and
    [breadth_first_search] as state-passing functions over the double-ended
    work list, the colour property map and the visitor, and records every
    action of the engine (visitor calls, colour writes, work-list operations)
    in program order. *)

From stdpp Require Import base option list gmap.

(** ** Data model *)

(** Vertices are integral handles ([u :int]); edges are opaque descriptors. *)
Definition V := nat.
Definition E := nat.

(** [pybgl.graph_traversal]: the three colours. *)
Inductive Color := WHITE | GRAY | BLACK.

Global Instance Color_eq_dec : EqDecision Color.
Proof. solve_decision. Defined.

(** The graph interface the engine consumes ([pybgl.graph],
    [pybgl.incidence_graph]): adjacency iteration and edge endpoints. *)
Record Graph := mkGraph {
  vertices : list V;
  out_edges : V → list E;
  in_edges : V → list E;
  source : E → V;
  target : E → V
}.

(** Modelled from the spec: the [ReadWritePropertyMap] holding the colours
    (pybgl.property_map is not part of the sources). It is a dictionary
    with [get]/[set]; the engine assumes the default-value policy
    "unvisited" for keys that were never written. *)
Definition pmap_get (m : gmap V Color) (v : V) : Color := default WHITE (m !! v).
Definition pmap_set (m : gmap V Color) (v : V) (c : Color) : gmap V Color := <[v := c]> m.

(** The calls the engine can make on a visitor: one constructor per method
    of [DefaultBreadthFirstSearchVisitor]. *)
Inductive Call :=
  | discover_vertex (u : V)
  | examine_edge (e : E)
  | examine_vertex (u : V)
  | tree_edge (e : E)
  | non_tree_edge (e : E)
  | gray_target (e : E)
  | black_target (e : E)
  | finish_vertex (u : V).

(** Everything the engine does to its three mutable objects. *)
Inductive Action :=
  | vis_call (c : Call)                 (* vis.<method>(x, g) *)
  | pmap_setitem (v : V) (c : Color)    (* pmap_vcolor[v] = c *)
  | stack_append (s : V)                (* stack.append(s) *)
  | stack_appendleft (v : V)            (* stack.appendleft(v) *)
  | stack_pop (u : V).                  (* u = stack.pop() *)

Global Instance Call_eq_dec : EqDecision Call.
Proof. solve_decision. Defined.
Global Instance Action_eq_dec : EqDecision Action.
Proof. solve_decision. Defined.

(** A visitor is an object with eight methods acting on its own state. *)
Module Visitor.
Record t (S : Type) := mk {
discover_vertex : V → Graph → S → S;
examine_edge : E → Graph → S → S;
examine_vertex : V → Graph → S → S;
tree_edge : E → Graph → S → S;
non_tree_edge : E → Graph → S → S;
gray_target : E → Graph → S → S;
black_target : E → Graph → S → S;
finish_vertex : V → Graph → S → S
}.
Arguments mk {S}.
Arguments discover_vertex {S}.
Arguments examine_edge {S}.
Arguments examine_vertex {S}.
Arguments tree_edge {S}.
Arguments non_tree_edge {S}.
Arguments gray_target {S}.
Arguments black_target {S}.
Arguments finish_vertex {S}.
End Visitor.

(** [class DefaultBreadthFirstSearchVisitor]: every method is [pass]. *)
Definition DefaultBreadthFirstSearchVisitor : Visitor.t unit :=
  Visitor.mk (λ _ _ s, s) (λ _ _ s, s) (λ _ _ s, s) (λ _ _ s, s)
             (λ _ _ s, s) (λ _ _ s, s) (λ _ _ s, s) (λ _ _ s, s).

(** Method dispatch. *)
Definition dispatch {S} (vis : Visitor.t S) (c : Call) (g : Graph) : S → S :=
  match c with
  | discover_vertex u => Visitor.discover_vertex vis u g
  | examine_edge e => Visitor.examine_edge vis e g
  | examine_vertex u => Visitor.examine_vertex vis u g
  | tree_edge e => Visitor.tree_edge vis e g
  | non_tree_edge e => Visitor.non_tree_edge vis e g
  | gray_target e => Visitor.gray_target vis e g
  | black_target e => Visitor.black_target vis e g
  | finish_vertex u => Visitor.finish_vertex vis u g
  end.

(** ** [collections.deque]

    A deque is the list of its elements from the left end to the right end. *)
Module deque.
Section ops.
Context {A : Type}.

Definition append (x : A) (d : list A) : list A := d ++ [x].
Definition appendleft (x : A) (d : list A) : list A := x :: d.

(** [d.pop()] removes and returns the rightmost element. *)
Fixpoint pop (d : list A) : option (A * list A) :=
  match d with
  | [] => None
  | x :: d' =>
      match pop d' with
      | None => Some (x, [])
      | Some (y, r) => Some (y, x :: r)
      end
  end.
End ops.
End deque.

(** ** The engine *)

(** The mutable objects of one call, and the record of what was done. *)
Record State (S : Type) := mkState {
  stack : list V;
  pmap_vcolor : gmap V Color;
  vis : S;
  trace : list Action
}.
Arguments mkState {S}.
Arguments stack {S}.
Arguments pmap_vcolor {S}.
Arguments vis {S}.
Arguments trace {S}.

Section engine.
Context {S : Type} (visitor : Visitor.t S).
Context (g : Graph) (if_push : option (E → Graph → bool)) (forward : bool).

(** [_out_edges = out_edges if forward else in_edges] *)
Definition _out_edges : V → list E := if forward then out_edges g else in_edges g.
(** [_target = target if forward else source] *)
Definition _target : E → V := if forward then target g else source g.
(** [if not if_push: if_push = (lambda e, g: True)] *)
Definition _if_push : E → Graph → bool :=
  match if_push with
  | Some f => f
  | None => λ _ _, true
  end.

Definition call (c : Call) (st : State S) : State S :=
  mkState (stack st) (pmap_vcolor st) (dispatch visitor c g (vis st))
          (trace st ++ [vis_call c]).

Definition setitem (v : V) (c : Color) (st : State S) : State S :=
  mkState (stack st) (pmap_set (pmap_vcolor st) v c) (vis st)
          (trace st ++ [pmap_setitem v c]).

Definition append (s : V) (st : State S) : State S :=
  mkState (deque.append s (stack st)) (pmap_vcolor st) (vis st)
          (trace st ++ [stack_append s]).

Definition appendleft (v : V) (st : State S) : State S :=
  mkState (deque.appendleft v (stack st)) (pmap_vcolor st) (vis st)
          (trace st ++ [stack_appendleft v]).

(** Body of [for s in sources]. *)
Definition add_source (st : State S) (s : V) : State S :=
  let st := setitem s GRAY st in
  let st := call (discover_vertex s) st in
  append s st.

(** Body of [for e in _out_edges(u, g)]. *)
Definition visit_edge (st : State S) (e : E) : State S :=
  let v := _target e in
  let st := call (examine_edge e) st in
  let color_v := pmap_get (pmap_vcolor st) v in
  match color_v with
  | WHITE =>
      let st := call (tree_edge e) st in
      let st := setitem v GRAY st in
      let st := call (discover_vertex v) st in
      if _if_push e g then appendleft v st else st
  | GRAY => call (gray_target e) st
  | BLACK => call (black_target e) st
  end.

(** Body of [while stack], once [u = stack.pop()] has been taken. *)
Definition visit_vertex (u : V) (st : State S) : State S :=
  let st := call (examine_vertex u) st in
  let st := foldl visit_edge st (_out_edges u) in
  let st := setitem u BLACK st in
  call (finish_vertex u) st.

(** One turn of [while stack]; [None] when the loop condition is false. *)
Definition loop_step (st : State S) : option (State S) :=
  match deque.pop (stack st) with
  | None => None
  | Some (u, rest) =>
      Some (visit_vertex u
              (mkState rest (pmap_vcolor st) (vis st) (trace st ++ [stack_pop u])))
  end.

(** [while stack: ...], cut after [fuel] turns. *)
Fixpoint while_stack (fuel : nat) (st : State S) : State S :=
  match fuel with
  | O => st
  | Datatypes.S fuel' =>
      match loop_step st with
      | None => st
      | Some st' => while_stack fuel' st'
      end
  end.

(** State at the loop head: after [stack = deque()] and [for s in sources]. *)
Definition initial (sources : list V) (pmap : gmap V Color) (vis0 : S) : State S :=
  foldl add_source (mkState [] pmap vis0 []) sources.

(** [breadth_first_search_graph(g, sources, pmap_vcolor, vis, if_push, forward)].
    [sources] is the sequence in which the source collection is iterated.
    The result is [None] when [fuel] turns of the loop did not empty the
    work list. *)
Definition breadth_first_search_graph
    (sources : list V) (pmap : gmap V Color) (vis0 : S) (fuel : nat)
  : option (State S) :=
  let st := while_stack fuel (initial sources pmap vis0) in
  match stack st with
  | [] => Some st
  | _ :: _ => None
  end.

(** [breadth_first_search(s, g, pmap_vcolor, vis, if_push, forward)]:
    the set literal [{s}] is iterated as the one-element sequence. *)
Definition breadth_first_search
    (s : V) (pmap : gmap V Color) (vis0 : S) (fuel : nat) : option (State S) :=
  breadth_first_search_graph (elements ({[ s ]} : gset V)) pmap vis0 fuel.
End engine.

(** A small graph: 0 → 1, 0 → 2, 1 → 3, edges numbered in that order. *)
Definition diamond : Graph :=
  mkGraph [0; 1; 2; 3]
    (λ u, match u with 0 => [0; 1] | 1 => [2] | _ => [] end)
    (λ v, match v with 1 => [0] | 2 => [1] | 3 => [2] | _ => [] end)
    (λ e, match e with 0 | 1 => 0 | _ => 1 end)
    (λ e, match e with 0 => 1 | 1 => 2 | _ => 3 end).


(** The graph in which every edge is turned around. *)
Definition transpose (g : Graph) : Graph :=
  mkGraph (vertices g) (in_edges g) (out_edges g) (target g) (source g).

(** A visitor (resp. an edge filter) that is always handed the graph [g]. *)
Definition visitor_on {S} (g : Graph) (v : Visitor.t S) : Visitor.t S :=
  Visitor.mk
    (λ u _, Visitor.discover_vertex v u g) (λ e _, Visitor.examine_edge v e g)
    (λ u _, Visitor.examine_vertex v u g) (λ e _, Visitor.tree_edge v e g)
    (λ e _, Visitor.non_tree_edge v e g) (λ e _, Visitor.gray_target v e g)
    (λ e _, Visitor.black_target v e g) (λ u _, Visitor.finish_vertex v u g).

Definition filter_on (g : Graph) (f : E → Graph → bool) : E → Graph → bool :=
  λ e _, f e g.

(** The classification callback that belongs to a colour of the far endpoint. *)
Definition classify (c : Color) (e : E) : Call :=
  match c with
  | WHITE => tree_edge e
  | GRAY => gray_target e
  | BLACK => black_target e
  end.

(** ** Reading the record of a run *)

(** The colour map obtained from [m] by the writes of [tr], in order. *)
Definition replay (m : gmap V Color) (tr : list Action) : gmap V Color :=
  foldl (λ m a, match a with pmap_setitem v c => pmap_set m v c | _ => m end) m tr.

(** Vertices reported by [discover_vertex], [examine_vertex]; vertices
    taken by [stack.pop()] and given to [stack.appendleft]. *)
Definition discovered (tr : list Action) : list V :=
  omap (λ a, match a with vis_call (discover_vertex v) => Some v | _ => None end) tr.
Definition examined (tr : list Action) : list V :=
  omap (λ a, match a with vis_call (examine_vertex v) => Some v | _ => None end) tr.
Definition popped (tr : list Action) : list V :=
  omap (λ a, match a with stack_pop v => Some v | _ => None end) tr.
Definition pushed_left (tr : list Action) : list V :=
  omap (λ a, match a with stack_appendleft v => Some v | _ => None end) tr.

(** The vertex discovered last among those not examined yet. *)
Definition most_recent_pending (tr : list Action) : option V :=
  last (filter (λ v, v ∉ examined tr) (discovered tr)).

Definition is_classification (c : Call) : bool :=
  match c with
  | tree_edge _ | gray_target _ | black_target _ => true
  | _ => false
  end.

(** Actions that are neither [examine_edge] nor a classification callback. *)
Definition not_edge_call (a : Action) : bool :=
  match a with
  | vis_call (examine_edge _) => false
  | vis_call c => negb (is_classification c)
  | _ => true
  end.

(** Traces in which the edge callbacks come in pairs: [examine_edge(e)]
    and then the callback for the colour the far endpoint has at that
    moment, [m0] being the colour map before the first action. *)
Inductive paired (far : E → V) (m0 : gmap V Color) : list Action → Prop :=
  | paired_nil : paired far m0 []
  | paired_other tr a :
      paired far m0 tr → not_edge_call a = true → paired far m0 (tr ++ [a])
  | paired_edge tr e :
      paired far m0 tr →
      paired far m0 (tr ++ [vis_call (examine_edge e);
                            vis_call (classify (pmap_get (replay m0 tr) (far e)) e)]).

(** Program points of [breadth_first_search_graph]. *)
Inductive Point :=
  | at_sources (done : list V)        (* inside [for s in sources] *)
  | at_head                           (* at [while stack] *)
  | at_edges (u : V) (done : list E). (* inside [for e in _out_edges(u, g)] *)

(** The actions that concern vertex [v]: writes of its colour, its
    [discover_vertex], [examine_vertex] and [finish_vertex] calls, and its
    passages through the work list. *)
Definition about (v : V) (a : Action) : bool :=
  match a with
  | vis_call (discover_vertex u) | vis_call (examine_vertex u)
  | vis_call (finish_vertex u) | pmap_setitem u _
  | stack_append u | stack_appendleft u | stack_pop u => bool_decide (u = v)
  | vis_call _ => false
  end.

Definition history (v : V) (tr : list Action) : list Action :=
  filter (λ a, about v a) tr.

(** The colours written to [v], in order, and how often an action occurs. *)
Definition writes (v : V) (tr : list Action) : list Color :=
  omap (λ a, match a with
             | pmap_setitem u c => if bool_decide (u = v) then Some c else None
             | _ => None
             end) tr.

Definition occurrences (a : Action) (tr : list Action) : nat :=
  length (filter (λ b, b = a) tr).

(** How often [v] was put on the work list, from either end. *)
Definition pushes (v : V) (tr : list Action) : nat :=
  occurrences (stack_append v) tr + occurrences (stack_appendleft v) tr.

(** The life of a vertex, cut into the pieces the engine performs at once. *)
Definition begun (v : V) : list Action :=
  [pmap_setitem v GRAY; vis_call (discover_vertex v)].
Definition taken (v : V) : list Action :=
  [stack_pop v; vis_call (examine_vertex v)].
Definition ended (v : V) : list Action :=
  [pmap_setitem v BLACK; vis_call (finish_vertex v)].

Inductive Phase :=
  | Untouched   (* never seen *)
  | Dropped     (* discovered through a filtered edge, never pushed *)
  | Waiting     (* discovered and on the work list *)
  | Open        (* popped, its edges are being examined *)
  | Closed.     (* finished *)

Definition script (v : V) (ph : Phase) (push : Action) : list Action :=
  match ph with
  | Untouched => []
  | Dropped => begun v
  | Waiting => begun v ++ [push]
  | Open => begun v ++ [push] ++ taken v
  | Closed => begun v ++ [push] ++ taken v ++ ended v
  end.

Definition is_push (v : V) (a : Action) : Prop :=
  a = stack_append v ∨ a = stack_appendleft v.

(** How a vertex gets on the work list: a source by [stack.append] in the
    initialization, any other vertex by [stack.appendleft]. *)
Definition push_of (sources : list V) (v : V) : Action :=
  if decide (v ∈ sources) then stack_append v else stack_appendleft v.

(** The vertex whose edges are being examined, if any. *)
Definition current (pt : Point) : option V :=
  match pt with
  | at_edges u _ => Some u
  | _ => None
  end.

(** The colour that follows a colour. *)
Definition next_color (c : Color) : option Color :=
  match c with
  | WHITE => Some GRAY
  | GRAY => Some BLACK
  | BLACK => None
  end.

(** Traces in which every colour write moves its vertex one step forward
    from the colour it has at that moment. *)
Inductive advancing (m0 : gmap V Color) : list Action → Prop :=
  | advancing_nil : advancing m0 []
  | advancing_other tr a :
      advancing m0 tr → (∀ v c, a ≠ pmap_setitem v c) → advancing m0 (tr ++ [a])
  | advancing_write tr v c :
      advancing m0 tr → next_color (pmap_get (replay m0 tr) v) = Some c →
      advancing m0 (tr ++ [pmap_setitem v c]).

(** Reachability along the edges the engine follows. *)
Inductive reachable (g : Graph) (forward : bool) (sources : list V) : V → Prop :=
  | reachable_source s : s ∈ sources → reachable g forward sources s
  | reachable_edge u e :
      reachable g forward sources u → e ∈ _out_edges g forward u →
      reachable g forward sources (_target g forward e).

(** A finite graph: the endpoints of the edges of a vertex are vertices. *)
Definition closed (g : Graph) (forward : bool) : Prop :=
  ∀ u e, u ∈ vertices g → e ∈ _out_edges g forward u → _target g forward e ∈ vertices g.

(** Every vertex reads as unvisited. *)
Definition all_white (pmap : gmap V Color) : Prop :=
  ∀ v, pmap_get pmap v = WHITE.

(** What the record says about one vertex, given its colour, its presence
    on the work list and the vertex being examined. *)
Definition vertex_inv {S} (g : Graph) (if_push : option (E → Graph → bool))
    (sources : list V) (cur : option V) (st : State S) (v : V) : Prop :=
  ∃ ph,
    history v (trace st) = script v ph (push_of sources v) ∧
    match ph with
    | Untouched =>
        pmap_get (pmap_vcolor st) v = WHITE ∧ (v ∉ stack st) ∧ (cur ≠ Some v)
    | Dropped =>
        pmap_get (pmap_vcolor st) v = GRAY ∧ (v ∉ stack st) ∧ (cur ≠ Some v)
        ∧ ∃ e, _if_push if_push e g = false
    | Waiting =>
        pmap_get (pmap_vcolor st) v = GRAY ∧ v ∈ stack st ∧ (cur ≠ Some v)
    | Open =>
        pmap_get (pmap_vcolor st) v = GRAY ∧ (v ∉ stack st) ∧ (cur = Some v)
    | Closed =>
        pmap_get (pmap_vcolor st) v = BLACK ∧ (v ∉ stack st) ∧ (cur ≠ Some v)
    end.

(** The invariant of a run that starts from an all-unvisited colour map. *)
Record lifecycle_inv {S} (g : Graph) (if_push : option (E → Graph → bool))
    (sources : list V) (pmap : gmap V Color) (pt : Point) (st : State S) : Prop := {
  inv_nodup : NoDup (stack st);
  inv_vertex : ∀ v, vertex_inv g if_push sources (current pt) st v;
  inv_replay : pmap_vcolor st = replay pmap (trace st);
  inv_advancing : advancing pmap (trace st);
  inv_popped : NoDup (popped (trace st));
  inv_popped_seen : ∀ v, v ∈ popped (trace st) →
                         pmap_get (pmap_vcolor st) v ≠ WHITE ∧ (v ∉ stack st);
  inv_unseen : match pt with
               | at_sources done => ∀ v, v ∉ done → pmap_get (pmap_vcolor st) v = WHITE
               | _ => True
               end;
  inv_sources_seen : ∀ s,
    s ∈ match pt with at_sources done => done | _ => sources end →
    pmap_get (pmap_vcolor st) s ≠ WHITE
}.

(** What the colours say about reachability. *)
Record reach_inv {S} (g : Graph) (forward : bool) (sources : list V)
    (pt : Point) (st : State S) : Prop := {
  seen_reachable : ∀ v,
    pmap_get (pmap_vcolor st) v ≠ WHITE → reachable g forward sources v;
  stack_seen : ∀ v, v ∈ stack st → pmap_get (pmap_vcolor st) v ≠ WHITE;
  black_closed : ∀ u e,
    pmap_get (pmap_vcolor st) u = BLACK → e ∈ _out_edges g forward u →
    pmap_get (pmap_vcolor st) (_target g forward e) ≠ WHITE;
  sources_seen : ∀ s,
    s ∈ match pt with at_sources done => done | _ => sources end →
    pmap_get (pmap_vcolor st) s ≠ WHITE;
  edges_seen :
    match pt with
    | at_edges u done =>
        pmap_get (pmap_vcolor st) u ≠ WHITE
        ∧ ∀ e, e ∈ done → pmap_get (pmap_vcolor st) (_target g forward e) ≠ WHITE
    | _ => True
    end
}.

(** [closed] as a check that can be run. *)
Definition closedb (g : Graph) (forward : bool) : bool :=
  forallb (λ u, forallb (λ e, bool_decide (_target g forward e ∈ vertices g))
                  (_out_edges g forward u))
    (vertices g).

(** ** Dijkstra's relaxation *)

Module dijkstra.

(** The sentinel of an unreached vertex ([sys.maxsize] in the tests). *)
Definition infinity : Z := 2 ^ 63 - 1.

(** Modelled from the spec: the distance map is a property map with the
    default-value policy "+infinity"; the predecessor map defaults to the
    empty set (the tests back it with [defaultdict(set)]); the weight map
    has no default, a missing edge weight is [KeyNotFound]. *)
Definition distance (d : gmap V Z) (v : V) : Z := default infinity (d !! v).
Definition predecessors (p : gmap V (gset E)) (v : V) : gset E := default ∅ (p !! v).

Record State := mkState {
  queue : list (Z * V);              (* priority structure: key, vertex *)
  distance_map : gmap V Z;
  predecessor_map : gmap V (gset E)
}.

Inductive Outcome :=
  | Done (st : State)
  | KeyNotFound
  | OutOfFuel.

(** Extraction of an entry with minimum key; (re)insertion under a new key. *)
Fixpoint extract_min (q : list (Z * V)) : option ((Z * V) * list (Z * V)) :=
  match q with
  | [] => None
  | x :: q' =>
      match extract_min q' with
      | None => Some (x, [])
      | Some (y, r) => if (x.1 <=? y.1)%Z then Some (x, q') else Some (y, x :: r)
      end
  end.

Definition reinsert (v : V) (key : Z) (q : list (Z * V)) : list (Z * V) :=
  (key, v) :: filter (λ p, p.2 ≠ v) q.

(** Modelled from the spec: one relaxation of the main loop of
    [dijkstra_shortest_paths] (pybgl.dijkstra_shortest_paths is not among
    the sources), for the outgoing edge [e = (u, v)] of weight [w]:
    [candidate = distance[u] + w]; strictly better resets the predecessors
    of [v] to [{e}] and (re)inserts [v]; a tie adds [e] to the predecessors
    of [v] and leaves the distance alone; worse changes nothing. *)
Definition relax (g : Graph) (weight : gmap E Z) (u : V) (st : State) (e : E)
  : option State :=
  match weight !! e with
  | None => None
  | Some w =>
      let v := target g e in
      let candidate := (distance (distance_map st) u + w)%Z in
      if (candidate <? distance (distance_map st) v)%Z then
        Some (mkState (reinsert v candidate (queue st))
                (<[v := candidate]> (distance_map st))
                (<[v := {[ e ]}]> (predecessor_map st)))
      else if (candidate =? distance (distance_map st) v)%Z then
        Some (mkState (queue st) (distance_map st)
                (<[v := {[ e ]} ∪ predecessors (predecessor_map st) v]>
                   (predecessor_map st)))
      else Some st
  end.

Fixpoint relax_all (g : Graph) (weight : gmap E Z) (u : V) (st : State)
    (es : list E) : option State :=
  match es with
  | [] => Some st
  | e :: es' =>
      match relax g weight u st e with
      | None => None
      | Some st' => relax_all g weight u st' es'
      end
  end.

(** Modelled from the spec: the main loop, cut after [fuel] extractions. *)
Fixpoint main_loop (g : Graph) (weight : gmap E Z) (fuel : nat) (st : State)
  : Outcome :=
  match extract_min (queue st) with
  | None => Done st
  | Some ((_, u), rest) =>
      match fuel with
      | O => OutOfFuel
      | Datatypes.S fuel' =>
          match relax_all g weight u
                  (mkState rest (distance_map st) (predecessor_map st))
                  (out_edges g u) with
          | None => KeyNotFound
          | Some st' => main_loop g weight fuel' st'
          end
      end
  end.

(** Modelled from the spec:
    [dijkstra_shortest_paths(graph, source, weight_map, predecessor_map,
    distance_map)] sets [distance_map[source] = 0], seeds the priority
    structure with [source] and runs the main loop until the structure is
    empty. *)
Definition dijkstra_shortest_paths (g : Graph) (s : V) (weight : gmap E Z)
    (pred : gmap V (gset E)) (dist : gmap V Z) (fuel : nat) : Outcome :=
  main_loop g weight fuel (mkState [(0%Z, s)] (<[s := 0%Z]> dist) pred).

End dijkstra.

(** [test_parallel_edges]: vertices 0 and 1, edges 0 and 1 both from 0 to 1. *)
Definition parallel_edges : Graph :=
  mkGraph [0; 1]
    (λ u, match u with 0 => [0; 1] | _ => [] end)
    (λ v, match v with 1 => [0; 1] | _ => [] end)
    (λ _, 0) (λ _, 1).

(** ** More readings of the record *)

(** Edges reported by [examine_edge] and by [tree_edge]; vertices reported
    by [finish_vertex]. *)
Definition examined_edges (tr : list Action) : list E :=
  omap (λ a, match a with vis_call (examine_edge e) => Some e | _ => None end) tr.
Definition tree_edges (tr : list Action) : list E :=
  omap (λ a, match a with vis_call (tree_edge e) => Some e | _ => None end) tr.
Definition finished (tr : list Action) : list V :=
  omap (λ a, match a with vis_call (finish_vertex v) => Some v | _ => None end) tr.

(** What one turn of [for s in sources] does. *)
Definition source_actions (s : V) : list Action :=
  [pmap_setitem s GRAY; vis_call (discover_vertex s); stack_append s].

(** The number of entries of [vertices(g)] that read unvisited. *)
Definition white_count (g : Graph) (m : gmap V Color) : nat :=
  length (filter (λ v, pmap_get m v = WHITE) (vertices g)).

(** Traces in which [discover_vertex(v)] comes right after the write of
    in-progress to [v], and [finish_vertex(u)] right after the write of
    finished to [u]. *)
Definition is_announcement (a : Action) : bool :=
  match a with
  | vis_call (discover_vertex _) | vis_call (finish_vertex _) => true
  | _ => false
  end.

Inductive announced : list Action → Prop :=
  | announced_nil : announced []
  | announced_other tr a :
      announced tr → is_announcement a = false → announced (tr ++ [a])
  | announced_discover tr v :
      announced tr →
      announced (tr ++ [pmap_setitem v GRAY; vis_call (discover_vertex v)])
  | announced_finish tr u :
      announced tr →
      announced (tr ++ [pmap_setitem u BLACK; vis_call (finish_vertex u)]).

(** What is left to do at a loop head: the vertices waiting on the work
    list and the vertices that can still be discovered. *)
Definition remaining {S} (g : Graph) (st : State S) : nat :=
  length (stack st) + white_count g (pmap_vcolor st).

(** ** Distances *)

(** [within n v]: some source reaches [v] along at most [n] of the edges the
    engine follows. *)
Inductive within (g : Graph) (forward : bool) (sources : list V) : nat → V → Prop :=
  | within_source s n : s ∈ sources → within g forward sources n s
  | within_edge u e n :
      within g forward sources n u → e ∈ _out_edges g forward u →
      within g forward sources (Datatypes.S n) (_target g forward e).

(** [v] is at distance exactly [n] from the sources. *)
Definition at_distance (g : Graph) (forward : bool) (sources : list V)
    (n : nat) (v : V) : Prop :=
  within g forward sources n v ∧ ∀ m, within g forward sources m v → n ≤ m.

(** Sequences in which no vertex is farther from the sources than a later
    one. *)
Inductive level_ordered (g : Graph) (forward : bool) (sources : list V)
  : list V → Prop :=
  | level_ordered_nil : level_ordered g forward sources []
  | level_ordered_snoc l v :
      level_ordered g forward sources l →
      (∀ u n, u ∈ l → within g forward sources n v → within g forward sources n u) →
      level_ordered g forward sources (l ++ [v]).

(** The work list, read in the order in which it will be popped, holds
    vertices at distance [d] followed by vertices at distance [d + 1]; the
    examined vertices are at distance at most [d], and every vertex within
    [d] has been discovered. *)
Definition level_inv {S} (g : Graph) (forward : bool) (sources : list V)
    (pt : Point) (st : State S) : Prop :=
  match pt with
  | at_sources done => stack st = done ∧ examined (trace st) = []
  | _ =>
      ∃ d A B,
        reverse (stack st) = A ++ B
        ∧ Forall (at_distance g forward sources d) A
        ∧ Forall (at_distance g forward sources (Datatypes.S d)) B
        ∧ (∀ w, within g forward sources d w → pmap_get (pmap_vcolor st) w ≠ WHITE)
        ∧ (∀ v, v ∈ examined (trace st) →
                ∃ k, k ≤ d ∧ at_distance g forward sources k v)
        ∧ level_ordered g forward sources (examined (trace st))
        ∧ match pt with
          | at_edges u _ => at_distance g forward sources d u
          | _ => True
          end
  end.

(** ** The graph builder of the tests *)

Module make_graph.
Section add_node.
(** The graph type of [pybgl.graph] and its [add_vertex], which returns
    the new vertex, are not part of the sources; they are parameters. *)
Context {G : Type} (add_vertex : G → V * G).

(** [not u], for [u] the result of [d.get(un)]: [None] and the vertex [0]
    are false values. *)
Definition falsy (u : option V) : bool :=
  match u with
  | None | Some O => true
  | Some (Datatypes.S _) => false
  end.

(** [add_node(un, g, d)], nested in [make_graph]: the vertex of the name
    [un], the graph and the dictionary afterwards. *)
Definition add_node (un : nat) (g : G) (d : gmap nat V) : V * G * gmap nat V :=
  let u := d !! un in
  if falsy u then
    let '(u, g) := add_vertex g in
    (u, g, <[un := u]> d)
  else (default 0 u, g, d).

(** Calls of [add_node] for a sequence of names; the vertices are dropped. *)
Definition add_nodes (names : list nat) (g : G) (d : gmap nat V) : G * gmap nat V :=
  foldl (λ gd un, let '(_, g, d) := add_node un gd.1 gd.2 in (g, d)) (g, d) names.
End add_node.
End make_graph.

(** ** The work list *)

Section deque_facts.
Context {A : Type}.
Implicit Types (x : A) (d : list A).

Lemma pop_append x d : deque.pop (deque.append x d) = Some (x, d).
Proof.
  unfold deque.append. induction d as [|y d IH]; simpl; [done|].
  by rewrite IH.
Qed.

Lemma pop_Some d x r : deque.pop d = Some (x, r) ↔ d = r ++ [x].
Proof.
  split.
  - revert x r. induction d as [|y d IH]; intros x r; simpl; [done|].
    destruct (deque.pop d) as [[z r']|] eqn:Hd.
    + intros [= <- <-]. by rewrite (IH z r').
    + intros [= <- <-]. destruct d as [|w d]; [done|].
      simpl in Hd. by destruct (deque.pop d) as [[? ?]|].
  - intros ->. apply pop_append.
Qed.

Lemma pop_None d : deque.pop d = None ↔ d = [].
Proof.
  split; [|by intros ->].
  destruct d as [|y d]; [done|]. simpl. by destruct (deque.pop d) as [[? ?]|].
Qed.

Lemma pop_appendleft x d y :
  deque.pop (deque.appendleft x (d ++ [y])) = Some (y, deque.appendleft x d).
Proof. apply pop_Some. done. Qed.
End deque_facts.

(** ** Single source, edge filter, direction *)

Section simple_facts.
Context {S : Type} (visitor : Visitor.t S) (g : Graph).
Implicit Types (if_push : option (E → Graph → bool)) (forward : bool).
Implicit Types (st : State S) (e : E) (u v s : V).

Lemma dispatch_visitor_on c g' (s : S) :
  dispatch (visitor_on g visitor) c g' s = dispatch visitor c g s.
Proof. by destruct c. Qed.

Lemma visit_edge_transpose if_push st e :
  visit_edge (visitor_on g visitor) (transpose g) (filter_on g <$> if_push) true st e
  = visit_edge visitor g if_push false st e.
Proof.
  unfold visit_edge, call, setitem, appendleft; simpl.
  destruct (pmap_get _ _); simpl; try done.
  by destruct if_push.
Qed.

Lemma foldl_visit_edge_transpose if_push es st :
  foldl (visit_edge (visitor_on g visitor) (transpose g) (filter_on g <$> if_push) true) st es
  = foldl (visit_edge visitor g if_push false) st es.
Proof.
  revert st. induction es as [|e es IH]; intros st; simpl; [done|].
  by rewrite visit_edge_transpose, IH.
Qed.

Lemma visit_vertex_transpose if_push u st :
  visit_vertex (visitor_on g visitor) (transpose g) (filter_on g <$> if_push) true u st
  = visit_vertex visitor g if_push false u st.
Proof.
  unfold visit_vertex, call, setitem; simpl.
  by rewrite foldl_visit_edge_transpose.
Qed.

Lemma while_stack_transpose if_push fuel st :
  while_stack (visitor_on g visitor) (transpose g) (filter_on g <$> if_push) true fuel st
  = while_stack visitor g if_push false fuel st.
Proof.
  revert st. induction fuel as [|fuel IH]; intros st; simpl; [done|].
  unfold loop_step. destruct (deque.pop (stack st)) as [[u rest]|]; [|done].
  by rewrite visit_vertex_transpose, IH.
Qed.

Lemma initial_transpose sources pmap (vis0 : S) :
  initial (visitor_on g visitor) (transpose g) sources pmap vis0
  = initial visitor g sources pmap vis0.
Proof.
  unfold initial. generalize (mkState [] pmap vis0 []).
  induction sources as [|s sources IH]; intros st; simpl; [done|].
  by rewrite IH.
Qed.
End simple_facts.

(** ** A proof rule for the engine

    An assertion indexed by the program point holds at every loop head as
    soon as each piece of the body carries it to the next point. *)

Lemma foldl_invariant {X St : Type} (f : St → X → St) (Q : list X → St → Prop) l st0 :
  Q [] st0 →
  (∀ done x st, Q done st → (∃ rest, l = done ++ x :: rest) → Q (done ++ [x]) (f st x)) →
  Q l (foldl f st0 l).
Proof.
  intros H0 Hstep.
  assert (∀ rest done st, l = done ++ rest → Q done st → Q l (foldl f st rest)) as Hgen.
  { induction rest as [|x rest IH]; intros done st Hl HQ; simpl.
    - by rewrite Hl, app_nil_r.
    - apply (IH (done ++ [x])); [by rewrite <- app_assoc|].
      apply Hstep; [done|]. by exists rest. }
  by apply (Hgen l []).
Qed.

Ltac unfold_engine :=
  unfold visit_vertex, visit_edge, add_source, call, setitem, append, appendleft,
    deque.append, deque.appendleft in *; simpl in *.

Ltac not_in_trace :=
  rewrite ?not_elem_of_app, ?not_elem_of_cons;
  repeat split; try done; apply not_elem_of_nil.

Section rule.
Context {S : Type} (visitor : Visitor.t S).
Context (g : Graph) (if_push : option (E → Graph → bool)) (forward : bool).
Context (sources : list V) (pmap : gmap V Color) (vis0 : S).
Context (P : Point → State S → Prop).

Local Abbreviation visit_edge := (visit_edge visitor g if_push forward).
Local Abbreviation call := (call visitor g).

Hypothesis P_enter : P (at_sources []) (mkState [] pmap vis0 []).
Hypothesis P_source : ∀ st done s,
  P (at_sources done) st → (∃ rest, sources = done ++ s :: rest) →
  P (at_sources (done ++ [s])) (add_source visitor g st s).
Hypothesis P_loop : ∀ st, P (at_sources sources) st → P at_head st.
Hypothesis P_pop : ∀ st u rest,
  P at_head st → stack st = rest ++ [u] →
  P (at_edges u [])
    (call (examine_vertex u)
       (mkState rest (pmap_vcolor st) (vis st) (trace st ++ [stack_pop u]))).
Hypothesis P_edge : ∀ st u done e,
  P (at_edges u done) st → (∃ rest, _out_edges g forward u = done ++ e :: rest) →
  P (at_edges u (done ++ [e])) (visit_edge st e).
Hypothesis P_finish : ∀ st u,
  P (at_edges u (_out_edges g forward u)) st →
  P at_head (call (finish_vertex u) (setitem u BLACK st)).

Lemma initial_rule : P at_head (initial visitor g sources pmap vis0).
Proof.
  apply P_loop. unfold initial.
  apply (foldl_invariant _ (λ done st, P (at_sources done) st)); auto.
Qed.

Lemma loop_step_rule st st' :
  P at_head st → loop_step visitor g if_push forward st = Some st' → P at_head st'.
Proof.
  intros HP. unfold loop_step.
  destruct (deque.pop (stack st)) as [[u rest]|] eqn:Hpop; [|done].
  intros [= <-]. apply pop_Some in Hpop.
  apply P_finish.
  apply (foldl_invariant _ (λ done st, P (at_edges u done) st)); [|by auto].
  by apply P_pop.
Qed.

Lemma while_stack_rule fuel st :
  P at_head st → P at_head (while_stack visitor g if_push forward fuel st).
Proof.
  revert st. induction fuel as [|fuel IH]; intros st HP; simpl; [done|].
  destruct (loop_step visitor g if_push forward st) as [st'|] eqn:Hstep; [|done].
  eauto using loop_step_rule.
Qed.

Lemma engine_rule fuel :
  P at_head (while_stack visitor g if_push forward fuel
               (initial visitor g sources pmap vis0)).
Proof. apply while_stack_rule, initial_rule. Qed.
End rule.

(** ** Facts about recorded traces *)

Lemma snoc_eq_app {A} (l : list A) a pre x post :
  l ++ [a] = pre ++ x :: post →
  (post = [] ∧ pre = l ∧ a = x) ∨ (∃ post', post = post' ++ [a] ∧ l = pre ++ x :: post').
Proof.
  destruct post as [|y post' _] using rev_ind; intros Heq.
  - apply app_inj_tail in Heq as [-> ->]. by left.
  - right. exists post'.
    change (pre ++ x :: post' ++ [y]) with (pre ++ (x :: post') ++ [y]) in Heq.
    rewrite app_assoc in Heq. apply app_inj_tail in Heq as [-> ->]. done.
Qed.

Lemma replay_app m t1 t2 : replay m (t1 ++ t2) = replay (replay m t1) t2.
Proof. unfold replay. by rewrite foldl_app. Qed.

Lemma examined_app t1 t2 : examined (t1 ++ t2) = examined t1 ++ examined t2.
Proof. unfold examined. by rewrite omap_app. Qed.

Lemma pushed_left_app t1 t2 : pushed_left (t1 ++ t2) = pushed_left t1 ++ pushed_left t2.
Proof. unfold pushed_left. by rewrite omap_app. Qed.

Lemma discovered_app t1 t2 : discovered (t1 ++ t2) = discovered t1 ++ discovered t2.
Proof. unfold discovered. by rewrite omap_app. Qed.

Lemma popped_app t1 t2 : popped (t1 ++ t2) = popped t1 ++ popped t2.
Proof. unfold popped. by rewrite omap_app. Qed.

Section paired_facts.
Context (far : E → V) (m0 : gmap V Color).

Lemma paired_examine_edge tr :
  paired far m0 tr →
  ∀ pre e post, tr = pre ++ vis_call (examine_edge e) :: post →
    ∃ post', post = vis_call (classify (pmap_get (replay m0 pre) (far e)) e) :: post'.
Proof.
  induction 1 as [|tr a Hp IH Ha|tr e0 Hp IH]; intros pre e post Heq.
  - by destruct pre.
  - apply snoc_eq_app in Heq as [(_ & _ & ->)|(post' & -> & Htr)]; [done|].
    destruct (IH _ _ _ Htr) as [post'' ->]. by eexists.
  - change (tr ++ [?a; ?b]) with (tr ++ [a] ++ [b]) in Heq.
    rewrite app_assoc in Heq.
    apply snoc_eq_app in Heq as [(_ & _ & Hc)|(post' & -> & Heq)].
    { by destruct (pmap_get _ _). }
    apply snoc_eq_app in Heq as [(-> & -> & [= ->])|(post'' & -> & Htr)].
    + by eexists.
    + destruct (IH _ _ _ Htr) as [post3 ->]. by eexists.
Qed.

Lemma paired_classification tr :
  paired far m0 tr →
  ∀ pre c post, tr = pre ++ vis_call c :: post → is_classification c = true →
    ∃ pre' e, pre = pre' ++ [vis_call (examine_edge e)]
              ∧ c = classify (pmap_get (replay m0 pre') (far e)) e.
Proof.
  induction 1 as [|tr a Hp IH Ha|tr e0 Hp IH]; intros pre c post Heq Hc.
  - by destruct pre.
  - apply snoc_eq_app in Heq as [(_ & _ & ->)|(post' & -> & Htr)]; [|by eauto].
    simpl in Ha. destruct c; simplify_eq/=.
  - change (tr ++ [?a; ?b]) with (tr ++ [a] ++ [b]) in Heq.
    rewrite app_assoc in Heq.
    apply snoc_eq_app in Heq as [(_ & -> & [= <-])|(post' & -> & Heq)].
    { by eexists _, _. }
    apply snoc_eq_app in Heq as [(_ & _ & [= <-])|(post'' & -> & Htr)]; [done|].
    by eauto.
Qed.
End paired_facts.

(** ** Invariants that need no assumption on the inputs *)

Section unconditional.
Context {S : Type} (visitor : Visitor.t S).
Context (g : Graph) (if_push : option (E → Graph → bool)) (forward : bool).
Context (sources : list V) (pmap : gmap V Color) (vis0 : S).

Local Abbreviation loop_head fuel :=
  (while_stack visitor g if_push forward fuel (initial visitor g sources pmap vis0)).

(** The colour map is the initial one with the recorded writes applied. *)
Lemma pmap_vcolor_replay fuel :
  pmap_vcolor (loop_head fuel) = replay pmap (trace (loop_head fuel)).
Proof.
  apply (engine_rule _ _ _ _ _ _ _
           (λ _ st, pmap_vcolor st = replay pmap (trace st))); try done.
  - intros st done s Hst _. unfold_engine. rewrite !replay_app, <- Hst. done.
  - intros st u rest Hst _. unfold_engine. rewrite !replay_app, <- Hst. done.
  - intros st u done e Hst _. unfold_engine.
    destruct (pmap_get _ _); [destruct (_if_push _ _ _)|..]; simpl;
      rewrite !replay_app, <- Hst; done.
  - intros st u Hst. unfold_engine. rewrite !replay_app, <- Hst. done.
Qed.

(** The visitor's state is the calls of the trace delivered in order. *)
Lemma vis_replay fuel :
  vis (loop_head fuel)
  = foldl (λ s a, match a with vis_call c => dispatch visitor c g s | _ => s end)
      vis0 (trace (loop_head fuel)).
Proof.
  apply (engine_rule _ _ _ _ _ _ _
           (λ _ st, vis st = foldl (λ s a, match a with
                                           | vis_call c => dispatch visitor c g s
                                           | _ => s end) vis0 (trace st))); try done.
  - intros st done s Hst _. unfold_engine. rewrite !foldl_app, <- Hst. done.
  - intros st u rest Hst _. unfold_engine. rewrite !foldl_app, <- Hst. done.
  - intros st u done e Hst _. unfold_engine.
    destruct (pmap_get _ _); [destruct (_if_push _ _ _)|..]; simpl;
      rewrite !foldl_app, <- Hst; done.
  - intros st u Hst. unfold_engine. rewrite !foldl_app, <- Hst. done.
Qed.

Lemma trace_paired fuel :
  paired (_target g forward) pmap (trace (loop_head fuel)).
Proof.
  enough (paired (_target g forward) pmap (trace (loop_head fuel))
          ∧ pmap_vcolor (loop_head fuel) = replay pmap (trace (loop_head fuel)))
    by tauto.
  apply (engine_rule _ _ _ _ _ _ _
           (λ _ st, paired (_target g forward) pmap (trace st)
                    ∧ pmap_vcolor st = replay pmap (trace st))).
  - split; [constructor|done].
  - intros st done s [Hp Hst] _. unfold_engine. split.
    + by repeat (apply paired_other; [|done]).
    + rewrite !replay_app, <- Hst. done.
  - done.
  - intros st u rest [Hp Hst] _. unfold_engine. split.
    + by repeat (apply paired_other; [|done]).
    + rewrite !replay_app, <- Hst. done.
  - intros st u done e [Hp Hst] _. unfold visit_edge.
    assert (paired (_target g forward) pmap
              (trace st ++ [vis_call (examine_edge e);
                            vis_call (classify (pmap_get (pmap_vcolor st)
                                                  (_target g forward e)) e)])) as Hp'.
    { rewrite Hst. by apply paired_edge. }
    change (pmap_vcolor (call visitor g (examine_edge e) st)) with (pmap_vcolor st).
    destruct (pmap_get (pmap_vcolor st) _); [destruct (_if_push _ _ _)|..];
      unfold_engine.
    + split.
      * do 3 (apply paired_other; [|done]). by rewrite <- app_assoc.
      * rewrite !replay_app, <- Hst. done.
    + split.
      * do 2 (apply paired_other; [|done]). by rewrite <- app_assoc.
      * rewrite !replay_app, <- Hst. done.
    + split; [by rewrite <- app_assoc|]. rewrite !replay_app, <- Hst. done.
    + split; [by rewrite <- app_assoc|]. rewrite !replay_app, <- Hst. done.
  - intros st u [Hp Hst]. unfold_engine. split.
    + by repeat (apply paired_other; [|done]).
    + rewrite !replay_app, <- Hst. done.
Qed.

Lemma trace_no_non_tree_edge fuel e :
  vis_call (non_tree_edge e) ∉ trace (loop_head fuel).
Proof.
  apply (engine_rule _ _ _ _ _ _ _
           (λ _ st, vis_call (non_tree_edge e) ∉ trace st)); try done.
  - apply not_elem_of_nil.
  - intros st done s Hst _. unfold_engine. not_in_trace.
  - intros st u rest Hst _. unfold_engine. not_in_trace.
  - intros st u done e' Hst _. unfold_engine.
    destruct (pmap_get _ _); [destruct (_if_push _ _ _)|..]; simpl; not_in_trace.
  - intros st u Hst. unfold_engine. not_in_trace.
Qed.

(** Examined vertices, then the work list read from its right end, are
    the sources in reverse followed by the vertices pushed on the left. *)
Lemma examined_fifo fuel :
  examined (trace (loop_head fuel)) ++ reverse (stack (loop_head fuel))
  = reverse sources ++ pushed_left (trace (loop_head fuel)).
Proof.
  apply (engine_rule _ _ _ _ _ _ _
           (λ pt st,
              match pt with
              | at_sources done =>
                  examined (trace st) = [] ∧ pushed_left (trace st) = []
                  ∧ stack st = done
              | _ => examined (trace st) ++ reverse (stack st)
                     = reverse sources ++ pushed_left (trace st)
              end)).
  - done.
  - intros st done s (He & Hp & Hs) _. unfold_engine.
    rewrite !examined_app, !pushed_left_app, He, Hp, Hs. done.
  - intros st (-> & -> & ->). by rewrite app_nil_r.
  - intros st u rest Hst Hs. unfold_engine.
    rewrite !examined_app, !pushed_left_app. simpl.
    rewrite Hs, reverse_snoc in Hst. rewrite !app_nil_r, <- Hst, <- app_assoc. done.
  - intros st u done e Hst _. unfold_engine.
    destruct (pmap_get _ _); [destruct (_if_push _ _ _)|..]; simpl;
      rewrite !examined_app, !pushed_left_app; simpl;
      rewrite ?app_nil_r, ?reverse_cons, ?app_assoc, ?Hst; done.
  - intros st u Hst. unfold_engine.
    rewrite !examined_app, !pushed_left_app. simpl. by rewrite !app_nil_r.
Qed.
End unconditional.

Section unfiltered.
Context {S : Type} (visitor : Visitor.t S).
Context (g : Graph) (forward : bool).
Context (sources : list V) (pmap : gmap V Color) (vis0 : S).

(** Without a filter every discovered vertex is a source or was pushed. *)
Lemma discovered_unfiltered fuel :
  let st := while_stack visitor g None forward fuel
              (initial visitor g sources pmap vis0) in
  discovered (trace st) = sources ++ pushed_left (trace st).
Proof.
  apply (engine_rule _ _ _ _ _ _ _
           (λ pt st,
              match pt with
              | at_sources done =>
                  discovered (trace st) = done ∧ pushed_left (trace st) = []
              | _ => discovered (trace st) = sources ++ pushed_left (trace st)
              end)).
  - done.
  - intros st done s (Hd & Hp) _. unfold_engine.
    rewrite !discovered_app, !pushed_left_app, Hd, Hp. simpl.
    by rewrite !app_nil_r.
  - intros st (-> & ->). by rewrite app_nil_r.
  - intros st u rest Hst _. unfold_engine.
    rewrite !discovered_app, !pushed_left_app. simpl. by rewrite !app_nil_r.
  - intros st u done e Hst _. unfold_engine.
    destruct (pmap_get _ _); simpl;
      rewrite !discovered_app, !pushed_left_app; simpl;
      rewrite ?app_nil_r, ?app_assoc, ?Hst; done.
  - intros st u Hst. unfold_engine.
    rewrite !discovered_app, !pushed_left_app. simpl. by rewrite !app_nil_r.
Qed.
End unfiltered.

(** ** The life of a vertex *)

Lemma pmap_get_set m v c w :
  pmap_get (pmap_set m v c) w = if decide (v = w) then c else pmap_get m w.
Proof.
  unfold pmap_get, pmap_set. rewrite lookup_insert. by case_decide.
Qed.

Lemma pmap_get_set_eq m v c : pmap_get (pmap_set m v c) v = c.
Proof. rewrite pmap_get_set. by case_decide. Qed.

Lemma pmap_get_set_ne m v c w : v ≠ w → pmap_get (pmap_set m v c) w = pmap_get m w.
Proof. intros. rewrite pmap_get_set. by case_decide. Qed.

Lemma pmap_set_seen m v c w :
  c ≠ WHITE → pmap_get m w ≠ WHITE → pmap_get (pmap_set m v c) w ≠ WHITE.
Proof. intros Hc Hw. rewrite pmap_get_set. by case_decide. Qed.

Lemma pmap_set_gray_black m v w :
  pmap_get (pmap_set m v GRAY) w = BLACK → pmap_get m w = BLACK.
Proof. rewrite pmap_get_set. by case_decide. Qed.

Lemma history_app v t1 t2 : history v (t1 ++ t2) = history v t1 ++ history v t2.
Proof. unfold history. by rewrite filter_app. Qed.

Lemma history_singleton v a : history v [a] = if about v a then [a] else [].
Proof. unfold history. rewrite filter_cons, filter_nil. by destruct (about v a). Qed.

Ltac history_simpl :=
  simpl; rewrite ?history_app, ?history_singleton; simpl;
  rewrite ?bool_decide_eq_true_2, ?bool_decide_eq_false_2 by done;
  rewrite ?app_nil_r.

Section vertex_life.
Context {S : Type} (g : Graph) (if_push : option (E → Graph → bool)).
Context (sources : list V).
Implicit Types (st : State S) (cur : option V).

Lemma vertex_inv_frame cur cur' st st' v :
  history v (trace st') = history v (trace st) →
  pmap_get (pmap_vcolor st') v = pmap_get (pmap_vcolor st) v →
  (v ∈ stack st' ↔ v ∈ stack st) →
  (cur' = Some v ↔ cur = Some v) →
  vertex_inv g if_push sources cur st v → vertex_inv g if_push sources cur' st' v.
Proof.
  intros Hh Hc Hs Hcur (ph & Hhist & Hph).
  exists ph. rewrite Hh, Hc. split; [done|].
  destruct ph; intuition congruence.
Qed.

Lemma vertex_inv_white cur st v :
  vertex_inv g if_push sources cur st v → pmap_get (pmap_vcolor st) v = WHITE →
  history v (trace st) = [] ∧ (v ∉ stack st) ∧ cur ≠ Some v.
Proof.
  intros (ph & Hhist & Hph) Hc.
  destruct ph; destruct Hph as [Hc' Hph]; rewrite Hc in Hc'; try done.
Qed.

Lemma vertex_inv_waiting cur st v :
  vertex_inv g if_push sources cur st v → v ∈ stack st →
  pmap_get (pmap_vcolor st) v = GRAY ∧ cur ≠ Some v
  ∧ history v (trace st) = script v Waiting (push_of sources v).
Proof.
  intros (ph & Hhist & Hph) Hin.
  destruct ph; intuition congruence.
Qed.

Lemma vertex_inv_open st u :
  vertex_inv g if_push sources (Some u) st u →
  pmap_get (pmap_vcolor st) u = GRAY ∧ (u ∉ stack st)
  ∧ history u (trace st) = script u Open (push_of sources u).
Proof.
  intros (ph & Hhist & Hph).
  destruct ph; intuition congruence.
Qed.
End vertex_life.

(** ** A run from an all-unvisited colour map *)

Section lifecycle.
Context {S : Type} (visitor : Visitor.t S).
Context (g : Graph) (if_push : option (E → Graph → bool)) (forward : bool).
Context (sources : list V) (pmap : gmap V Color) (vis0 : S).
Hypothesis sources_NoDup : NoDup sources.
Hypothesis pmap_white : all_white pmap.

Local Abbreviation Inv := (lifecycle_inv (S:=S) g if_push sources pmap).

Lemma lifecycle_enter : Inv (at_sources []) (mkState [] pmap vis0 []).
Proof.
  split; simpl; try done.
  - constructor.
  - intros v. exists Untouched. split; [done|]. simpl.
    split; [apply pmap_white|]. split; [apply not_elem_of_nil|done].
  - constructor.
  - constructor.
  - intros v Hv. by apply elem_of_nil in Hv.
  - intros v Hv. by apply elem_of_nil in Hv.
Qed.

Lemma lifecycle_source st done s :
  Inv (at_sources done) st → (∃ rest, sources = done ++ s :: rest) →
  Inv (at_sources (done ++ [s])) (add_source visitor g st s).
Proof.
  intros [Hnd Hv Hre Hadv Hpop Hseen Hsrc Hss] [rest Hsources].
  assert (s ∉ done) as Hs.
  { rewrite Hsources in sources_NoDup.
    apply NoDup_app in sources_NoDup as (_ & Hdisj & _).
    intros Hin. apply (Hdisj _ Hin). by left. }
  assert (s ∈ sources) as Hsrc_s.
  { rewrite Hsources, elem_of_app, elem_of_cons. auto. }
  pose proof (Hsrc s Hs) as Hwhite.
  destruct (vertex_inv_white _ _ _ _ _ _ (Hv s) Hwhite) as (Hhist & Hnotin & _).
  split; unfold_engine.
  - apply NoDup_app. repeat split; [done| |apply NoDup_singleton].
    intros x Hx ->%list_elem_of_singleton. done.
  - intros v. destruct (decide (v = s)) as [->|Hne].
    + exists Waiting. split.
      * unfold push_of. rewrite decide_True by done. history_simpl.
        by rewrite Hhist.
      * simpl. rewrite pmap_get_set_eq, elem_of_app, list_elem_of_singleton. auto.
    + apply (vertex_inv_frame _ _ _ None None st); simpl; try done.
      * by history_simpl.
      * by apply pmap_get_set_ne.
      * rewrite elem_of_app, list_elem_of_singleton. intuition congruence.
  - rewrite !replay_app, <- Hre. done.
  - apply advancing_other; [|done]. apply advancing_other; [|done].
    apply advancing_write; [done|]. by rewrite <- Hre, Hwhite.
  - rewrite !popped_app. simpl. by rewrite !app_nil_r.
  - rewrite !popped_app. simpl. rewrite !app_nil_r. intros v Hin.
    destruct (Hseen v Hin) as [Hc Hst]. split.
    + rewrite pmap_get_set. by case_decide.
    + rewrite elem_of_app, list_elem_of_singleton. intros [?| ->]; [done|].
      by rewrite Hwhite in Hc.
  - intros v Hnot. rewrite elem_of_app, list_elem_of_singleton in Hnot.
    rewrite pmap_get_set_ne; [|intuition congruence]. apply Hsrc. intuition congruence.
  - intros v. rewrite elem_of_app, list_elem_of_singleton. intros [Hv'| ->].
    + apply pmap_set_seen; auto.
    + by rewrite pmap_get_set_eq.
Qed.

Lemma lifecycle_loop st : Inv (at_sources sources) st → Inv at_head st.
Proof. intros [Hnd Hv Hre Hadv Hpop Hseen Hsrc Hss]. by split. Qed.

Lemma lifecycle_pop st u rest :
  Inv at_head st → stack st = rest ++ [u] →
  Inv (at_edges u [])
    (call visitor g (examine_vertex u)
       (mkState rest (pmap_vcolor st) (vis st) (trace st ++ [stack_pop u]))).
Proof.
  intros [Hnd Hv Hre Hadv Hpop Hseen _ Hss] Hstack.
  rewrite Hstack in Hnd. apply NoDup_app in Hnd as (Hrest & Hdisj & _).
  assert (u ∉ rest) as Hu.
  { intros Hin. apply (Hdisj _ Hin). by left. }
  assert (u ∈ stack st) as Hin.
  { rewrite Hstack, elem_of_app, list_elem_of_singleton. by right. }
  destruct (vertex_inv_waiting _ _ _ _ _ _ (Hv u) Hin) as (Hgray & _ & Hhist).
  split; unfold_engine.
  - done.
  - intros v. destruct (decide (v = u)) as [->|Hne].
    + exists Open. split.
      * history_simpl. by rewrite Hhist.
      * done.
    + apply (vertex_inv_frame _ _ _ None (Some u) st); simpl; try done.
      * by history_simpl.
      * rewrite Hstack, elem_of_app, list_elem_of_singleton. intuition congruence.
      * intuition congruence.
  - rewrite !replay_app, <- Hre. done.
  - by do 2 (apply advancing_other; [|done]).
  - rewrite !popped_app. simpl. rewrite app_nil_r.
    apply NoDup_app. repeat split; [done| |apply NoDup_singleton].
    intros x Hx ->%list_elem_of_singleton. by destruct (Hseen _ Hx).
  - rewrite !popped_app. simpl. rewrite app_nil_r. intros v.
    rewrite elem_of_app, list_elem_of_singleton. intros [Hv'| ->].
    + destruct (Hseen v Hv') as [Hc Hst]. split; [done|].
      rewrite Hstack, elem_of_app in Hst. intuition congruence.
    + split; [by rewrite Hgray|done].
  - done.
  - done.
Qed.

Lemma lifecycle_edge st u done e :
  Inv (at_edges u done) st →
  Inv (at_edges u (done ++ [e])) (visit_edge visitor g if_push forward st e).
Proof.
  intros [Hnd Hv Hre Hadv Hpop Hseen _ Hss]. unfold visit_edge.
  change (pmap_vcolor (call visitor g (examine_edge e) st)) with (pmap_vcolor st).
  set (v := _target g forward e).
  destruct (pmap_get (pmap_vcolor st) v) eqn:Hcol.
  - (* unvisited *)
    destruct (vertex_inv_white _ _ _ _ _ _ (Hv v) Hcol) as (Hhist & Hnotin & Hcur).
    assert (push_of sources v = stack_appendleft v) as Hpush_of.
    { unfold push_of. rewrite decide_False; [done|]. intros Hin. by apply Hss in Hin. }
    assert (advancing pmap
              ((((trace st ++ [vis_call (examine_edge e)]) ++ [vis_call (tree_edge e)])
                 ++ [pmap_setitem v GRAY]) ++ [vis_call (discover_vertex v)])) as Hadv'.
    { apply advancing_other; [|done]. apply advancing_write.
      - by do 2 (apply advancing_other; [|done]).
      - rewrite !replay_app. simpl. by rewrite <- Hre, Hcol. }
    destruct (_if_push if_push e g) eqn:Hpush; split; unfold_engine.
    + apply NoDup_cons. done.
    + intros w. destruct (decide (w = v)) as [->|Hne].
      * exists Waiting. rewrite Hpush_of. split.
        -- history_simpl. by rewrite Hhist.
        -- simpl. rewrite pmap_get_set_eq, elem_of_cons. auto.
      * apply (vertex_inv_frame _ _ _ (Some u) (Some u) st); simpl; try done.
        -- by history_simpl.
        -- by apply pmap_get_set_ne.
        -- rewrite elem_of_cons. intuition congruence.
    + rewrite !replay_app, <- Hre. done.
    + by apply advancing_other.
    + rewrite !popped_app. simpl. by rewrite !app_nil_r.
    + rewrite !popped_app. simpl. rewrite !app_nil_r. intros w Hin.
      destruct (Hseen w Hin) as [Hc Hst]. split.
      * rewrite pmap_get_set. by case_decide.
      * rewrite elem_of_cons. intros [->|?]; [|done]. by rewrite Hcol in Hc.
    + done.
    + intros w Hw. apply pmap_set_seen; auto.
    + done.
    + intros w. destruct (decide (w = v)) as [->|Hne].
      * exists Dropped. split.
        -- history_simpl. by rewrite Hhist.
        -- simpl. rewrite pmap_get_set_eq. eauto.
      * apply (vertex_inv_frame _ _ _ (Some u) (Some u) st); simpl; try done.
        -- by history_simpl.
        -- by apply pmap_get_set_ne.
    + rewrite !replay_app, <- Hre. done.
    + done.
    + rewrite !popped_app. simpl. by rewrite !app_nil_r.
    + rewrite !popped_app. simpl. rewrite !app_nil_r. intros w Hin.
      destruct (Hseen w Hin) as [Hc Hst]. split; [|done].
      rewrite pmap_get_set. by case_decide.
    + done.
    + intros w Hw. apply pmap_set_seen; auto.
  - (* in progress *)
    split; unfold_engine; try done.
    + intros w. apply (vertex_inv_frame _ _ _ (Some u) (Some u) st); simpl; try done.
      by history_simpl.
    + rewrite !replay_app, <- Hre. done.
    + by do 2 (apply advancing_other; [|done]).
    + rewrite !popped_app. simpl. by rewrite !app_nil_r.
    + rewrite !popped_app. simpl. by rewrite !app_nil_r.
  - (* finished *)
    split; unfold_engine; try done.
    + intros w. apply (vertex_inv_frame _ _ _ (Some u) (Some u) st); simpl; try done.
      by history_simpl.
    + rewrite !replay_app, <- Hre. done.
    + by do 2 (apply advancing_other; [|done]).
    + rewrite !popped_app. simpl. by rewrite !app_nil_r.
    + rewrite !popped_app. simpl. by rewrite !app_nil_r.
Qed.

Lemma lifecycle_finish st u done :
  Inv (at_edges u done) st →
  Inv at_head (call visitor g (finish_vertex u) (setitem u BLACK st)).
Proof.
  intros [Hnd Hv Hre Hadv Hpop Hseen _ Hss].
  destruct (vertex_inv_open _ _ _ _ _ (Hv u)) as (Hgray & Hnotin & Hhist).
  split; unfold_engine.
  - done.
  - intros v. destruct (decide (v = u)) as [->|Hne].
    + exists Closed. split.
      * history_simpl. by rewrite Hhist.
      * simpl. by rewrite pmap_get_set_eq.
    + apply (vertex_inv_frame _ _ _ (Some u) None st); simpl; try done.
      * by history_simpl.
      * by apply pmap_get_set_ne.
      * intuition congruence.
  - rewrite !replay_app, <- Hre. done.
  - apply advancing_other; [|done]. apply advancing_write; [done|].
    by rewrite <- Hre, Hgray.
  - rewrite !popped_app. simpl. by rewrite !app_nil_r.
  - rewrite !popped_app. simpl. rewrite !app_nil_r. intros w Hin.
    destruct (Hseen w Hin) as [Hc Hst]. split; [|done].
    rewrite pmap_get_set. by case_decide.
  - done.
  - intros w Hw. apply pmap_set_seen; auto.
Qed.

(** The invariant holds at every loop head. *)
Lemma lifecycle_at_head fuel :
  Inv at_head (while_stack visitor g if_push forward fuel
                 (initial visitor g sources pmap vis0)).
Proof.
  apply (engine_rule _ _ _ _ _ _ _ Inv).
  - apply lifecycle_enter.
  - apply lifecycle_source.
  - apply lifecycle_loop.
  - apply lifecycle_pop.
  - intros st u done e HI _. by apply lifecycle_edge.
  - intros st u. apply lifecycle_finish.
Qed.
End lifecycle.

(** ** Colours and reachability *)

Section reachability.
Context {S : Type} (visitor : Visitor.t S).
Context (g : Graph) (if_push : option (E → Graph → bool)) (forward : bool).
Context (sources : list V) (pmap : gmap V Color) (vis0 : S).
Hypothesis pmap_white : all_white pmap.

Local Abbreviation RInv := (reach_inv (S:=S) g forward sources).

Lemma reach_enter : RInv (at_sources []) (mkState [] pmap vis0 []).
Proof.
  split; simpl; try done.
  - intros v Hv. by rewrite pmap_white in Hv.
  - intros v Hv. by apply elem_of_nil in Hv.
  - intros u e Hu. by rewrite pmap_white in Hu.
  - intros s Hs. by apply elem_of_nil in Hs.
Qed.

Lemma reach_source st done s :
  RInv (at_sources done) st → (∃ rest, sources = done ++ s :: rest) →
  RInv (at_sources (done ++ [s])) (add_source visitor g st s).
Proof.
  intros [Hreach Hstack Hblack Hsrc _] [rest Hsources].
  assert (s ∈ sources) as Hs.
  { rewrite Hsources, elem_of_app, elem_of_cons. auto. }
  split; unfold_engine; try done.
  - intros v. rewrite pmap_get_set. case_decide as Hv.
    + intros _. subst v. by constructor.
    + apply Hreach.
  - intros v. rewrite elem_of_app, list_elem_of_singleton. intros [Hv| ->].
    + apply pmap_set_seen; auto.
    + by rewrite pmap_get_set_eq.
  - intros u e Hu%pmap_set_gray_black He. apply pmap_set_seen; eauto.
  - intros v. rewrite elem_of_app, list_elem_of_singleton. intros [Hv| ->].
    + apply pmap_set_seen; auto.
    + by rewrite pmap_get_set_eq.
Qed.

Lemma reach_loop st : RInv (at_sources sources) st → RInv at_head st.
Proof. intros [Hreach Hstack Hblack Hsrc _]. by split. Qed.

Lemma reach_pop st u rest :
  RInv at_head st → stack st = rest ++ [u] →
  RInv (at_edges u [])
    (call visitor g (examine_vertex u)
       (mkState rest (pmap_vcolor st) (vis st) (trace st ++ [stack_pop u]))).
Proof.
  intros [Hreach Hstack Hblack Hsrc _] Hst.
  split; unfold_engine; try done.
  - intros v Hv. apply Hstack. rewrite Hst, elem_of_app. auto.
  - split.
    + apply Hstack. rewrite Hst, elem_of_app, list_elem_of_singleton. auto.
    + intros e He. by apply elem_of_nil in He.
Qed.

Lemma reach_edge st u done e :
  RInv (at_edges u done) st → e ∈ _out_edges g forward u →
  RInv (at_edges u (done ++ [e])) (visit_edge visitor g if_push forward st e).
Proof.
  intros [Hreach Hstack Hblack Hsrc [Hu Hdone]] He. unfold visit_edge.
  change (pmap_vcolor (call visitor g (examine_edge e) st)) with (pmap_vcolor st).
  set (v := _target g forward e).
  assert (∀ e', e' ∈ done ++ [e] →
            pmap_get (pmap_vcolor st) v ≠ WHITE →
            pmap_get (pmap_vcolor st) (_target g forward e') ≠ WHITE) as Hdone'.
  { intros e'. rewrite elem_of_app, list_elem_of_singleton. intros [?| ->]; auto. }
  destruct (pmap_get (pmap_vcolor st) v) eqn:Hcol.
  - assert (RInv (at_edges u (done ++ [e]))
              (mkState (stack st) (pmap_set (pmap_vcolor st) v GRAY) (vis st) []))
      as [Hreach' Hstack' Hblack' Hsrc' Hedges'].
    { split; simpl.
      - intros w. rewrite pmap_get_set. case_decide as Hw.
        + intros _. subst w. apply (reachable_edge _ _ _ u e); auto.
        + apply Hreach.
      - intros w Hw. apply pmap_set_seen; auto.
      - intros w e' Hw%pmap_set_gray_black He'. apply pmap_set_seen; eauto.
      - intros w Hw. apply pmap_set_seen; auto.
      - split; [by apply pmap_set_seen|].
        intros e'. rewrite elem_of_app, list_elem_of_singleton. intros [?| ->].
        + apply pmap_set_seen; auto.
        + fold v. by rewrite pmap_get_set_eq. }
    destruct (_if_push if_push e g); split; unfold_engine; try done.
    intros w. rewrite elem_of_cons. intros [->|Hw]; [|by apply Hstack'].
    by rewrite pmap_get_set_eq.
  - split; unfold_engine; try done. split; [done|].
    intros e' He'. by apply Hdone'.
  - split; unfold_engine; try done. split; [done|].
    intros e' He'. by apply Hdone'.
Qed.

Lemma reach_finish st u :
  RInv (at_edges u (_out_edges g forward u)) st →
  RInv at_head (call visitor g (finish_vertex u) (setitem u BLACK st)).
Proof.
  intros [Hreach Hstack Hblack Hsrc [Hu Hdone]].
  split; unfold_engine; try done.
  - intros v. rewrite pmap_get_set. case_decide as Hv.
    + intros _. subst v. by apply Hreach.
    + apply Hreach.
  - intros v Hv. apply pmap_set_seen; auto.
  - intros w e. rewrite pmap_get_set. case_decide as Hw.
    + intros _ He. subst w. apply pmap_set_seen; auto.
    + intros Hb He. apply pmap_set_seen; eauto.
  - intros s Hs. apply pmap_set_seen; auto.
Qed.

Lemma reach_at_head fuel :
  RInv at_head (while_stack visitor g if_push forward fuel
                  (initial visitor g sources pmap vis0)).
Proof.
  apply (engine_rule _ _ _ _ _ _ _ RInv).
  - apply reach_enter.
  - apply reach_source.
  - apply reach_loop.
  - apply reach_pop.
  - intros st u done e HI [rest Hrest]. apply reach_edge; [done|].
    rewrite Hrest, elem_of_app, elem_of_cons. auto.
  - apply reach_finish.
Qed.
End reachability.

(** ** Termination *)

Section loop_facts.
Context {S : Type} (visitor : Visitor.t S).
Context (g : Graph) (if_push : option (E → Graph → bool)) (forward : bool).
Implicit Types (st : State S).

Local Abbreviation while_stack := (while_stack visitor g if_push forward).
Local Abbreviation loop_step := (loop_step visitor g if_push forward).

Lemma loop_step_None st : loop_step st = None ↔ stack st = [].
Proof.
  unfold loop_step. rewrite <- pop_None.
  by destruct (deque.pop (stack st)) as [[u rest]|].
Qed.

(** The loop run one turn longer. *)
Lemma while_stack_succ fuel st :
  while_stack (Datatypes.S fuel) st
  = match loop_step (while_stack fuel st) with
    | None => while_stack fuel st
    | Some st' => st'
    end.
Proof.
  revert st. induction fuel as [|fuel IH]; intros st.
  - simpl. by destruct (loop_step st).
  - change (while_stack (Datatypes.S (Datatypes.S fuel)) st)
      with (match loop_step st with
            | None => st
            | Some st' => while_stack (Datatypes.S fuel) st'
            end).
    destruct (loop_step st) as [st1|] eqn:Hstep.
    + rewrite IH. simpl. by rewrite Hstep.
    + simpl. by rewrite Hstep, Hstep.
Qed.

Lemma visit_edges_popped es st :
  popped (trace (foldl (visit_edge visitor g if_push forward) st es))
  = popped (trace st).
Proof.
  revert st. induction es as [|e es IH]; intros st; simpl; [done|].
  rewrite IH. unfold visit_edge.
  destruct (pmap_get _ _); [destruct (_if_push _ _ _)|..]; unfold_engine;
    rewrite !popped_app; simpl; by rewrite !app_nil_r.
Qed.

Lemma loop_step_popped st st' :
  loop_step st = Some st' →
  length (popped (trace st')) = Datatypes.S (length (popped (trace st))).
Proof.
  unfold loop_step. destruct (deque.pop (stack st)) as [[u rest]|]; [|done].
  intros [= <-]. unfold visit_vertex. unfold_engine.
  rewrite !popped_app, visit_edges_popped. simpl.
  rewrite !popped_app. simpl. rewrite !app_nil_r, length_app. simpl. lia.
Qed.

(** As long as the work list is not empty, every turn pops one vertex. *)
Lemma while_stack_popped fuel st :
  stack (while_stack fuel st) = []
  ∨ length (popped (trace (while_stack fuel st)))
    = length (popped (trace st)) + fuel.
Proof.
  induction fuel as [|fuel IH]; [right; simpl; lia|].
  rewrite while_stack_succ.
  destruct (loop_step (while_stack fuel st)) as [st'|] eqn:Hstep.
  - destruct IH as [Hempty|IH].
    + apply loop_step_None in Hempty. by rewrite Hempty in Hstep.
    + right. rewrite (loop_step_popped _ _ Hstep), IH. lia.
  - left. by apply loop_step_None.
Qed.

Lemma initial_popped sources pmap (vis0 : S) :
  popped (trace (initial visitor g sources pmap vis0)) = [].
Proof.
  unfold initial.
  assert (∀ st, popped (trace (foldl (add_source visitor g) st sources))
                = popped (trace st)) as H; [|by rewrite H].
  induction sources as [|s l IH]; intros st; simpl; [done|].
  rewrite IH. unfold_engine. rewrite !popped_app. simpl. by rewrite !app_nil_r.
Qed.
End loop_facts.

Lemma reachable_vertices g forward sources v :
  closed g forward → (∀ s, s ∈ sources → s ∈ vertices g) →
  reachable g forward sources v → v ∈ vertices g.
Proof. intros Hclosed Hsrc. induction 1; eauto. Qed.

Section termination.
Context {S : Type} (visitor : Visitor.t S).
Context (g : Graph) (if_push : option (E → Graph → bool)) (forward : bool).
Context (sources : list V) (pmap : gmap V Color) (vis0 : S).
Hypothesis graph_closed : closed g forward.
Hypothesis sources_vertices : ∀ s, s ∈ sources → s ∈ vertices g.
Hypothesis sources_NoDup : NoDup sources.
Hypothesis pmap_white : all_white pmap.

Local Abbreviation loop_head fuel :=
  (while_stack visitor g if_push forward fuel (initial visitor g sources pmap vis0)).

(** The popped vertices and a vertex still waiting are distinct vertices
    of the graph. *)
Lemma popped_bound fuel :
  length (popped (trace (loop_head fuel))) ≤ length (vertices g)
  ∧ (stack (loop_head fuel) ≠ [] →
     length (popped (trace (loop_head fuel))) < length (vertices g)).
Proof.
  destruct (lifecycle_at_head visitor g if_push forward sources pmap vis0
              sources_NoDup pmap_white fuel) as [_ _ _ _ Hpop Hseen _ _].
  destruct (reach_at_head visitor g if_push forward sources pmap vis0
              pmap_white fuel) as [Hreach Hstack _ _ _].
  assert (∀ v, pmap_get (pmap_vcolor (loop_head fuel)) v ≠ WHITE → v ∈ vertices g)
    as Hvert by eauto using reachable_vertices.
  split.
  - apply submseteq_length, NoDup_submseteq; [done|].
    intros v Hv. apply Hvert. by apply Hseen.
  - destruct (stack (loop_head fuel)) as [|u rest] eqn:Hst; [done|]. intros _.
    assert (u ∈ u :: rest) as Hu by left.
    change (length (u :: popped (trace (loop_head fuel))) ≤ length (vertices g)).
    apply submseteq_length, NoDup_submseteq.
    + apply NoDup_cons. split; [|done]. intros Hin. by destruct (Hseen u Hin).
    + intros v [->|Hv]%elem_of_cons; apply Hvert; [by apply Hstack|by apply Hseen].
Qed.

Lemma while_stack_empties fuel :
  length (vertices g) ≤ fuel → stack (loop_head fuel) = [].
Proof.
  intros Hfuel.
  destruct (while_stack_popped visitor g if_push forward fuel
              (initial visitor g sources pmap vis0)) as [Hempty|Hlen]; [done|].
  rewrite initial_popped in Hlen. simpl in Hlen.
  destruct (stack (loop_head fuel)) as [|u rest] eqn:Hst; [done|].
  destruct (popped_bound fuel) as [_ Hlt].
  rewrite Hst in Hlt. specialize (Hlt ltac:(done)). lia.
Qed.

Lemma graph_search_returns fuel :
  length (vertices g) ≤ fuel →
  breadth_first_search_graph visitor g if_push forward sources pmap vis0 fuel
  = Some (loop_head fuel).
Proof.
  intros Hfuel. unfold breadth_first_search_graph.
  by rewrite (while_stack_empties fuel Hfuel).
Qed.
End termination.

(** ** Reading a vertex's life off the record *)

Lemma omap_cons_eq {A B} (f : A → option B) a l :
  omap f (a :: l) = match f a with Some y => y :: omap f l | None => omap f l end.
Proof. reflexivity. Qed.

Lemma writes_history v tr : writes v tr = writes v (history v tr).
Proof.
  unfold writes, history. induction tr as [|a tr IH]; [done|].
  rewrite filter_cons. destruct (decide (about v a)) as [Ha|Ha].
  - by rewrite !omap_cons_eq, IH.
  - rewrite omap_cons_eq, IH. destruct a as [c|u c| | |]; try done.
    simpl in *. by destruct (bool_decide (u = v)).
Qed.

Lemma occurrences_history v a tr :
  about v a = true → occurrences a tr = occurrences a (history v tr).
Proof.
  intros Ha. unfold occurrences, history. induction tr as [|b tr IH]; [done|].
  rewrite !filter_cons.
  destruct (decide (about v b)) as [Hv|Hv], (decide (b = a)) as [Hb|Hb]; simpl.
  - rewrite filter_cons, decide_True by done. simpl. by rewrite IH.
  - rewrite filter_cons, decide_False by done. done.
  - subst b. by rewrite Ha in Hv.
  - done.
Qed.

Lemma occurrences_cons a b tr :
  occurrences a (b :: tr) = (if decide (b = a) then 1 else 0) + occurrences a tr.
Proof. unfold occurrences. rewrite filter_cons. by case_decide. Qed.

Lemma advancing_write_inv m0 tr :
  advancing m0 tr →
  ∀ pre v c post, tr = pre ++ pmap_setitem v c :: post →
    next_color (pmap_get (replay m0 pre) v) = Some c.
Proof.
  induction 1 as [|tr a Hadv IH Ha|tr w d Hadv IH Hnext]; intros pre v c post Heq.
  - by destruct pre.
  - apply snoc_eq_app in Heq as [(_ & _ & ->)|(post' & -> & Htr)]; [|by eauto].
    by destruct (Ha v c).
  - apply snoc_eq_app in Heq as [(_ & -> & [= <- <-])|(post' & -> & Htr)]; eauto.
Qed.

Ltac occurrences_simpl :=
  unfold pushes, script, begun, taken, ended; simpl; rewrite ?occurrences_cons;
  repeat (case_decide; simplify_eq); unfold occurrences; simpl; try done; try lia.

Section script_facts.
Context (v : V) (push : Action).
Hypothesis push_ok : is_push v push.

Lemma script_writes ph :
  writes v (script v ph push)
  = match ph with
    | Untouched => []
    | Closed => [GRAY; BLACK]
    | _ => [GRAY]
    end.
Proof.
  destruct push_ok as [-> | ->]; destruct ph; simpl;
    rewrite ?bool_decide_eq_true_2 by done; done.
Qed.

Lemma script_pushes ph : pushes v (script v ph push) ≤ 1.
Proof.
  unfold pushes.
  destruct push_ok as [-> | ->]; destruct ph; occurrences_simpl.
Qed.

Lemma script_closed_calls :
  occurrences (vis_call (discover_vertex v)) (script v Closed push) = 1
  ∧ occurrences (vis_call (examine_vertex v)) (script v Closed push) = 1
  ∧ occurrences (vis_call (finish_vertex v)) (script v Closed push) = 1.
Proof. destruct push_ok as [-> | ->]; repeat split; occurrences_simpl. Qed.
End script_facts.

Lemma is_push_push_of sources v : is_push v (push_of sources v).
Proof. unfold is_push, push_of. case_decide; auto. Qed.

Lemma pushes_history v tr : pushes v tr = pushes v (history v tr).
Proof.
  unfold pushes.
  rewrite <- !(occurrences_history v); [done|simpl..]; by apply bool_decide_eq_true_2.
Qed.

Section outcome.
Context {S : Type} (visitor : Visitor.t S).
Context (g : Graph) (if_push : option (E → Graph → bool)) (forward : bool).
Context (sources : list V) (pmap : gmap V Color) (vis0 : S).
Hypothesis sources_NoDup : NoDup sources.
Hypothesis pmap_white : all_white pmap.

Local Abbreviation loop_head fuel :=
  (while_stack visitor g if_push forward fuel (initial visitor g sources pmap vis0)).

Lemma vertex_at_head fuel v :
  vertex_inv g if_push sources None (loop_head fuel) v.
Proof.
  by destruct (lifecycle_at_head visitor g if_push forward sources pmap vis0
                 sources_NoDup pmap_white fuel) as [_ Hv _ _ _ _ _ _].
Qed.

Lemma pushed_at_most_once fuel v : pushes v (trace (loop_head fuel)) ≤ 1.
Proof.
  destruct (vertex_at_head fuel v) as (ph & Hhist & _).
  rewrite pushes_history, Hhist. apply script_pushes, is_push_push_of.
Qed.

Lemma writes_at_head fuel v :
  writes v (trace (loop_head fuel)) = []
  ∨ writes v (trace (loop_head fuel)) = [GRAY]
  ∨ writes v (trace (loop_head fuel)) = [GRAY; BLACK].
Proof.
  destruct (vertex_at_head fuel v) as (ph & Hhist & _).
  rewrite writes_history, Hhist, script_writes by apply is_push_push_of.
  destruct ph; auto.
Qed.

(** Once the work list is empty and nothing was filtered, a vertex is
    either untouched or finished. *)
Lemma vertex_at_exit fuel v :
  stack (loop_head fuel) = [] → (∀ e, _if_push if_push e g = true) →
  (pmap_get (pmap_vcolor (loop_head fuel)) v = WHITE
   ∧ history v (trace (loop_head fuel)) = [])
  ∨ (pmap_get (pmap_vcolor (loop_head fuel)) v = BLACK
     ∧ history v (trace (loop_head fuel)) = script v Closed (push_of sources v)).
Proof.
  intros Hempty Hall.
  destruct (vertex_at_head fuel v) as (ph & Hhist & Hph).
  destruct ph.
  - left. by destruct Hph.
  - destruct Hph as (_ & _ & _ & e & He). by rewrite Hall in He.
  - destruct Hph as (_ & Hin & _). rewrite Hempty in Hin. by apply elem_of_nil in Hin.
  - by destruct Hph as (_ & _ & ?).
  - right. by destruct Hph as [? _].
Qed.

(** At the exit the finished vertices are the reachable ones. *)
Lemma black_iff_reachable fuel v :
  stack (loop_head fuel) = [] → (∀ e, _if_push if_push e g = true) →
  reachable g forward sources v
  ↔ pmap_get (pmap_vcolor (loop_head fuel)) v = BLACK.
Proof.
  intros Hempty Hall.
  destruct (reach_at_head visitor g if_push forward sources pmap vis0
              pmap_white fuel) as [Hreach _ Hblack Hsrc _].
  assert (∀ w, pmap_get (pmap_vcolor (loop_head fuel)) w ≠ WHITE →
               pmap_get (pmap_vcolor (loop_head fuel)) w = BLACK) as Hseen.
  { intros w Hw. by destruct (vertex_at_exit fuel w Hempty Hall) as [[? _]|[? _]]. }
  split.
  - induction 1 as [s Hs|u e Hu IH He]; apply Hseen; eauto.
  - intros Hb. apply Hreach. by rewrite Hb.
Qed.
End outcome.

Lemma closedb_closed g forward : closedb g forward = true → closed g forward.
Proof.
  unfold closedb, closed. rewrite forallb_forall. intros H u e Hu He.
  apply list_elem_of_In, H in Hu. rewrite forallb_forall in Hu.
  apply list_elem_of_In, Hu in He. by apply bool_decide_eq_true in He.
Qed.

Lemma all_white_empty : all_white ∅.
Proof. intros v. unfold pmap_get. by rewrite lookup_empty. Qed.

(** ** The initialization, whatever the colour map *)

Lemma examined_edges_app t1 t2 :
  examined_edges (t1 ++ t2) = examined_edges t1 ++ examined_edges t2.
Proof. unfold examined_edges. by rewrite omap_app. Qed.

Lemma tree_edges_app t1 t2 : tree_edges (t1 ++ t2) = tree_edges t1 ++ tree_edges t2.
Proof. unfold tree_edges. by rewrite omap_app. Qed.

Lemma finished_app t1 t2 : finished (t1 ++ t2) = finished t1 ++ finished t2.
Proof. unfold finished. by rewrite omap_app. Qed.

Section initialization.
Context {S : Type} (visitor : Visitor.t S) (g : Graph).
Implicit Types (st : State S) (l : list V).

Lemma add_sources_stack l st :
  stack (foldl (add_source visitor g) st l) = stack st ++ l.
Proof.
  revert st. induction l as [|s l IH]; intros st; simpl.
  - by rewrite app_nil_r.
  - rewrite IH. unfold_engine. by rewrite <- app_assoc.
Qed.

Lemma add_sources_trace l st :
  trace (foldl (add_source visitor g) st l)
  = trace st ++ flat_map source_actions l.
Proof.
  revert st. induction l as [|s l IH]; intros st; simpl.
  - by rewrite app_nil_r.
  - rewrite IH. unfold_engine. by rewrite <- !app_assoc.
Qed.

Lemma add_sources_colour l st v :
  pmap_get (pmap_vcolor (foldl (add_source visitor g) st l)) v
  = if decide (v ∈ l) then GRAY else pmap_get (pmap_vcolor st) v.
Proof.
  revert st. induction l as [|s l IH]; intros st.
  - destruct (decide (v ∈ [])) as [H|H]; [by apply elem_of_nil in H|done].
  - change (foldl ?f st (s :: l)) with (foldl f (add_source visitor g st s) l).
    rewrite IH.
    assert (pmap_get (pmap_vcolor (add_source visitor g st s)) v
            = if decide (s = v) then GRAY else pmap_get (pmap_vcolor st) v) as ->
      by apply pmap_get_set.
    destruct (decide (v ∈ l)) as [H1|H1], (decide (v ∈ s :: l)) as [H2|H2],
      (decide (s = v)) as [H3|H3]; try done;
      rewrite elem_of_cons in H2; intuition congruence.
Qed.
End initialization.

(** ** The order of the visitor calls *)

Section call_order.
Context {S : Type} (visitor : Visitor.t S).
Context (g : Graph) (if_push : option (E → Graph → bool)) (forward : bool).
Context (sources : list V) (pmap : gmap V Color) (vis0 : S).

Local Abbreviation loop_head fuel :=
  (while_stack visitor g if_push forward fuel (initial visitor g sources pmap vis0)).

(** Between two turns of the main loop every examined vertex is finished,
    and the examined edges are the edges of the examined vertices. *)
Lemma examined_brackets fuel :
  popped (trace (loop_head fuel)) = examined (trace (loop_head fuel))
  ∧ finished (trace (loop_head fuel)) = examined (trace (loop_head fuel))
  ∧ examined_edges (trace (loop_head fuel))
    = flat_map (_out_edges g forward) (examined (trace (loop_head fuel))).
Proof.
  apply (engine_rule _ _ _ _ _ _ _
           (λ pt st,
              match pt with
              | at_edges u done =>
                  ∃ before,
                    examined (trace st) = before ++ [u]
                    ∧ popped (trace st) = before ++ [u]
                    ∧ finished (trace st) = before
                    ∧ examined_edges (trace st)
                      = flat_map (_out_edges g forward) before ++ done
              | _ =>
                  popped (trace st) = examined (trace st)
                  ∧ finished (trace st) = examined (trace st)
                  ∧ examined_edges (trace st)
                    = flat_map (_out_edges g forward) (examined (trace st))
              end)).
  - done.
  - intros st done s (Hp & Hf & He) _. unfold_engine.
    rewrite !popped_app, !finished_app, !examined_app, !examined_edges_app. simpl.
    by rewrite !app_nil_r.
  - done.
  - intros st u rest (Hp & Hf & He) _. unfold_engine.
    exists (examined (trace st)).
    rewrite !popped_app, !finished_app, !examined_app, !examined_edges_app. simpl.
    by rewrite !app_nil_r, Hp, Hf, He.
  - intros st u done e (before & Hx & Hp & Hf & He) _. exists before.
    unfold visit_edge.
    destruct (pmap_get _ _); [destruct (_if_push _ _ _)|..]; unfold_engine;
      rewrite !popped_app, !finished_app, !examined_app, !examined_edges_app; simpl;
      rewrite !app_nil_r, Hx, Hp, Hf, He, <- ?app_assoc; done.
  - intros st u (before & Hx & Hp & Hf & He). unfold_engine.
    rewrite !popped_app, !finished_app, !examined_app, !examined_edges_app. simpl.
    rewrite !app_nil_r, Hx, Hp, Hf, He, flat_map_app. simpl.
    by rewrite app_nil_r.
Qed.

(** Every [discover_vertex] is for a source or for the far endpoint of a
    tree edge. *)
Lemma discovered_tree_edges fuel :
  discovered (trace (loop_head fuel))
  = sources ++ (_target g forward <$> tree_edges (trace (loop_head fuel))).
Proof.
  apply (engine_rule _ _ _ _ _ _ _
           (λ pt st,
              match pt with
              | at_sources done =>
                  discovered (trace st) = done ∧ tree_edges (trace st) = []
              | _ => discovered (trace st)
                     = sources ++ (_target g forward <$> tree_edges (trace st))
              end)).
  - done.
  - intros st done s (Hd & Ht) _. unfold_engine.
    rewrite !discovered_app, !tree_edges_app, Hd, Ht. simpl. by rewrite !app_nil_r.
  - intros st (-> & ->). simpl. by rewrite app_nil_r.
  - intros st u rest Hst _. unfold_engine.
    rewrite !discovered_app, !tree_edges_app. simpl. by rewrite !app_nil_r.
  - intros st u done e Hst _. unfold visit_edge.
    destruct (pmap_get _ _); [destruct (_if_push _ _ _)|..]; unfold_engine;
      rewrite !discovered_app, !tree_edges_app; simpl;
      rewrite ?app_nil_r, ?fmap_app, Hst, <- ?app_assoc; done.
  - intros st u Hst. unfold_engine.
    rewrite !discovered_app, !tree_edges_app. simpl. by rewrite !app_nil_r.
Qed.
End call_order.

(** ** Vertices that are not unvisited at the start *)

Section barrier.
Context {S : Type} (visitor : Visitor.t S).
Context (g : Graph) (if_push : option (E → Graph → bool)) (forward : bool).
Context (sources : list V) (pmap : gmap V Color) (vis0 : S).
Context (v : V).
Hypothesis v_seen : pmap_get pmap v ≠ WHITE.
Hypothesis v_not_source : v ∉ sources.

(** Such a vertex, unless it is a source, is left alone. *)
Lemma barrier_at_head fuel :
  let st := while_stack visitor g if_push forward fuel
              (initial visitor g sources pmap vis0) in
  pmap_get (pmap_vcolor st) v = pmap_get pmap v
  ∧ (v ∉ stack st) ∧ history v (trace st) = [].
Proof.
  enough (let st := while_stack visitor g if_push forward fuel
                      (initial visitor g sources pmap vis0) in
          pmap_get (pmap_vcolor st) v = pmap_get pmap v
          ∧ (v ∉ stack st) ∧ history v (trace st) = []
          ∧ current at_head ≠ Some v) as H by (simpl in *; tauto).
  apply (engine_rule _ _ _ _ _ _ _
           (λ pt st,
              pmap_get (pmap_vcolor st) v = pmap_get pmap v
              ∧ (v ∉ stack st) ∧ history v (trace st) = []
              ∧ current pt ≠ Some v)).
  - repeat split; try done. apply not_elem_of_nil.
  - intros st done s (Hc & Hs & Hh & _) [rest Hrest].
    assert (s ≠ v) as Hne.
    { intros ->. apply v_not_source. rewrite Hrest, elem_of_app, elem_of_cons. auto. }
    unfold_engine. repeat split; try done.
    + by rewrite pmap_get_set_ne.
    + rewrite elem_of_app, list_elem_of_singleton. intuition congruence.
    + history_simpl. done.
  - done.
  - intros st u rest (Hc & Hs & Hh & _) Hst.
    assert (u ≠ v) as Hne.
    { intros ->. apply Hs. rewrite Hst, elem_of_app, list_elem_of_singleton. auto. }
    unfold_engine. repeat split; try done.
    + intros Hin. apply Hs. rewrite Hst, elem_of_app. auto.
    + history_simpl. done.
    + congruence.
  - intros st u done e (Hc & Hs & Hh & Hcur) _. unfold visit_edge.
    change (pmap_vcolor (call visitor g (examine_edge e) st)) with (pmap_vcolor st).
    destruct (pmap_get (pmap_vcolor st) (_target g forward e)) eqn:Hcol.
    + assert (_target g forward e ≠ v) as Hne.
      { intros Heq. rewrite Heq, Hc in Hcol. done. }
      destruct (_if_push _ _ _); unfold_engine; repeat split; try done.
      * by rewrite pmap_get_set_ne.
      * rewrite elem_of_cons. intuition congruence.
      * history_simpl. done.
      * by rewrite pmap_get_set_ne.
      * history_simpl. done.
    + unfold_engine. repeat split; try done. history_simpl. done.
    + unfold_engine. repeat split; try done. history_simpl. done.
  - intros st u (Hc & Hs & Hh & Hcur).
    assert (u ≠ v) as Hne by (simpl in Hcur; congruence).
    unfold_engine. repeat split; try done.
    + by rewrite pmap_get_set_ne.
    + history_simpl. done.
Qed.
End barrier.

(** ** Writes and announcements *)

Lemma announced_discover_inv tr :
  announced tr →
  ∀ pre v post, tr = pre ++ vis_call (discover_vertex v) :: post →
    ∃ pre', pre = pre' ++ [pmap_setitem v GRAY].
Proof.
  induction 1 as [|tr a Ha IH Hother|tr w Ha IH|tr w Ha IH]; intros pre v post Heq.
  - by destruct pre.
  - apply snoc_eq_app in Heq as [(_ & _ & ->)|(post' & -> & Htr)]; [done|by eauto].
  - change (tr ++ [?a; ?b]) with (tr ++ [a] ++ [b]) in Heq.
    rewrite app_assoc in Heq.
    apply snoc_eq_app in Heq as [(_ & -> & [= <-])|(post' & -> & Heq)]; [by eauto|].
    apply snoc_eq_app in Heq as [(_ & _ & [=])|(post'' & -> & Htr)]; by eauto.
  - change (tr ++ [?a; ?b]) with (tr ++ [a] ++ [b]) in Heq.
    rewrite app_assoc in Heq.
    apply snoc_eq_app in Heq as [(_ & _ & [=])|(post' & -> & Heq)].
    apply snoc_eq_app in Heq as [(_ & _ & [=])|(post'' & -> & Htr)]; by eauto.
Qed.

Lemma announced_finish_inv tr :
  announced tr →
  ∀ pre u post, tr = pre ++ vis_call (finish_vertex u) :: post →
    ∃ pre', pre = pre' ++ [pmap_setitem u BLACK].
Proof.
  induction 1 as [|tr a Ha IH Hother|tr w Ha IH|tr w Ha IH]; intros pre u post Heq.
  - by destruct pre.
  - apply snoc_eq_app in Heq as [(_ & _ & ->)|(post' & -> & Htr)]; [done|by eauto].
  - change (tr ++ [?a; ?b]) with (tr ++ [a] ++ [b]) in Heq.
    rewrite app_assoc in Heq.
    apply snoc_eq_app in Heq as [(_ & _ & [=])|(post' & -> & Heq)].
    apply snoc_eq_app in Heq as [(_ & _ & [=])|(post'' & -> & Htr)]; by eauto.
  - change (tr ++ [?a; ?b]) with (tr ++ [a] ++ [b]) in Heq.
    rewrite app_assoc in Heq.
    apply snoc_eq_app in Heq as [(_ & -> & [= <-])|(post' & -> & Heq)]; [by eauto|].
    apply snoc_eq_app in Heq as [(_ & _ & [=])|(post'' & -> & Htr)]; by eauto.
Qed.

Section announcements.
Context {S : Type} (visitor : Visitor.t S).
Context (g : Graph) (if_push : option (E → Graph → bool)) (forward : bool).
Context (sources : list V) (pmap : gmap V Color) (vis0 : S).

Lemma trace_announced fuel :
  announced (trace (while_stack visitor g if_push forward fuel
                      (initial visitor g sources pmap vis0))).
Proof.
  apply (engine_rule _ _ _ _ _ _ _ (λ _ st, announced (trace st))).
  - constructor.
  - intros st done s Hst _. unfold_engine.
    apply announced_other; [|done]. rewrite <- app_assoc. by apply announced_discover.
  - done.
  - intros st u rest Hst _. unfold_engine.
    by do 2 (apply announced_other; [|done]).
  - intros st u done e Hst _. unfold visit_edge.
    destruct (pmap_get _ _); [destruct (_if_push _ _ _)|..]; unfold_engine.
    + apply announced_other; [|done]. rewrite <- (app_assoc _ [_] [_]).
      apply announced_discover. by do 2 (apply announced_other; [|done]).
    + rewrite <- (app_assoc _ [_] [_]).
      apply announced_discover. by do 2 (apply announced_other; [|done]).
    + by do 2 (apply announced_other; [|done]).
    + by do 2 (apply announced_other; [|done]).
  - intros st u Hst. unfold_engine. rewrite <- app_assoc. by apply announced_finish.
Qed.
End announcements.

(** ** Termination, whatever the colour map and the sources *)

Lemma white_count_set_le g m v c :
  c ≠ WHITE → white_count g (pmap_set m v c) ≤ white_count g m.
Proof.
  intros Hc. unfold white_count.
  induction (vertices g) as [|w l IH]; [done|].
  rewrite !filter_cons, pmap_get_set.
  destruct (decide (v = w)) as [->|Hne].
  - rewrite decide_False by done. case_decide; simpl; lia.
  - case_decide; simpl; lia.
Qed.

Lemma white_count_set_lt g m v c :
  c ≠ WHITE → v ∈ vertices g → pmap_get m v = WHITE →
  white_count g (pmap_set m v c) < white_count g m.
Proof.
  intros Hc Hin Hwhite. unfold white_count.
  induction (vertices g) as [|w l IH]; [by apply elem_of_nil in Hin|].
  rewrite !filter_cons, pmap_get_set.
  destruct (decide (v = w)) as [->|Hne].
  - rewrite decide_False, decide_True by done. simpl.
    pose proof (white_count_set_le (mkGraph l (out_edges g) (in_edges g)
                                      (source g) (target g)) m w c Hc) as Hle.
    unfold white_count in Hle. simpl in Hle. lia.
  - apply elem_of_cons in Hin as [?|Hin]; [done|].
    specialize (IH Hin). case_decide; simpl; lia.
Qed.

Section general_termination.
Context {S : Type} (visitor : Visitor.t S).
Context (g : Graph) (if_push : option (E → Graph → bool)) (forward : bool).
Hypothesis graph_closed : closed g forward.
Implicit Types (st : State S).

Local Abbreviation in_graph st := (∀ x, x ∈ stack st → x ∈ vertices g).

Lemma visit_edge_remaining st e :
  _target g forward e ∈ vertices g → in_graph st →
  in_graph (visit_edge visitor g if_push forward st e)
  ∧ remaining g (visit_edge visitor g if_push forward st e) ≤ remaining g st.
Proof.
  intros He Hst. unfold visit_edge.
  change (pmap_vcolor (call visitor g (examine_edge e) st)) with (pmap_vcolor st).
  destruct (pmap_get (pmap_vcolor st) (_target g forward e)) eqn:Hcol.
  - pose proof (white_count_set_lt g (pmap_vcolor st) (_target g forward e) GRAY
                  ltac:(done) He Hcol) as Hlt.
    destruct (_if_push _ _ _); unfold remaining; unfold_engine.
    + split; [|lia]. intros x [->|Hx]%elem_of_cons; auto.
    + split; [done|lia].
  - by unfold remaining; unfold_engine.
  - by unfold remaining; unfold_engine.
Qed.

Lemma visit_edges_remaining es st :
  (∀ e, e ∈ es → _target g forward e ∈ vertices g) → in_graph st →
  in_graph (foldl (visit_edge visitor g if_push forward) st es)
  ∧ remaining g (foldl (visit_edge visitor g if_push forward) st es) ≤ remaining g st.
Proof.
  revert st. induction es as [|e es IH]; intros st Hes Hst; simpl; [done|].
  destruct (visit_edge_remaining st e) as [Hst' Hle]; [apply Hes; by left|done|].
  destruct (IH (visit_edge visitor g if_push forward st e)) as [Hst'' Hle'];
    [intros e' He'; apply Hes; by right|done|].
  split; [done|lia].
Qed.

(** One turn of the loop leaves strictly less to do. *)
Lemma loop_step_remaining st st' :
  loop_step visitor g if_push forward st = Some st' → in_graph st →
  in_graph st' ∧ remaining g st' < remaining g st.
Proof.
  unfold loop_step. destruct (deque.pop (stack st)) as [[u rest]|] eqn:Hpop; [|done].
  intros [= <-] Hst. apply pop_Some in Hpop.
  assert (u ∈ vertices g) as Hu.
  { apply Hst. rewrite Hpop, elem_of_app, list_elem_of_singleton. auto. }
  unfold visit_vertex.
  set (st1 := call visitor g (examine_vertex u)
                (mkState rest (pmap_vcolor st) (vis st) (trace st ++ [stack_pop u]))).
  destruct (visit_edges_remaining (_out_edges g forward u) st1) as [Hin Hle].
  { intros e He. by apply (graph_closed u). }
  { intros x Hx. apply Hst. rewrite Hpop, elem_of_app. auto. }
  split; [done|].
  pose proof (white_count_set_le g
                (pmap_vcolor (foldl (visit_edge visitor g if_push forward) st1
                                (_out_edges g forward u))) u BLACK ltac:(done)) as Hb.
  unfold remaining in *. unfold_engine. rewrite Hpop, length_app. simpl. lia.
Qed.

Lemma while_stack_remaining fuel st :
  in_graph st → remaining g st ≤ fuel →
  stack (while_stack visitor g if_push forward fuel st) = []
  ∧ length (popped (trace (while_stack visitor g if_push forward fuel st)))
    ≤ length (popped (trace st)) + remaining g st.
Proof.
  revert st. induction fuel as [|fuel IH]; intros st Hst Hfuel; simpl.
  - split; [|lia]. unfold remaining in Hfuel.
    destruct (stack st); [done|simpl in Hfuel; lia].
  - destruct (loop_step visitor g if_push forward st) as [st'|] eqn:Hstep.
    + destruct (loop_step_remaining st st' Hstep Hst) as [Hst' Hlt].
      destruct (IH st' Hst' ltac:(lia)) as [Hempty Hlen].
      split; [done|]. rewrite (loop_step_popped _ _ _ _ _ _ Hstep) in Hlen. lia.
    + split; [by apply loop_step_None in Hstep|lia].
Qed.
End general_termination.

(** ** No vertex twice *)

Lemma discovered_occurrences v tr :
  v ∈ discovered tr → 1 ≤ occurrences (vis_call (discover_vertex v)) tr.
Proof.
  unfold discovered. induction tr as [|a tr IH]; intros Hin.
  - by apply elem_of_nil in Hin.
  - rewrite occurrences_cons. rewrite omap_cons_eq in Hin.
    destruct a as [[u| | | | | | |]| | | |]; try (specialize (IH Hin); lia).
    apply elem_of_cons in Hin as [->|Hin].
    + rewrite decide_True by done. lia.
    + specialize (IH Hin). lia.
Qed.

Lemma discovered_NoDup tr :
  (∀ v, occurrences (vis_call (discover_vertex v)) tr ≤ 1) → NoDup (discovered tr).
Proof.
  induction tr as [|a tr IH]; intros Hocc; [constructor|].
  assert (NoDup (discovered tr)) as Hnd.
  { apply IH. intros v. specialize (Hocc v). rewrite occurrences_cons in Hocc. lia. }
  unfold discovered in *. rewrite omap_cons_eq.
  destruct a as [[u| | | | | | |]| | | |]; try done.
  apply NoDup_cons. split; [|done]. intros Hin%discovered_occurrences.
  specialize (Hocc u). rewrite occurrences_cons, decide_True in Hocc by done. lia.
Qed.

Lemma script_discovered v ph push :
  is_push v push → occurrences (vis_call (discover_vertex v)) (script v ph push) ≤ 1.
Proof. intros [-> | ->]; destruct ph; occurrences_simpl. Qed.

Lemma history_nil_not_about v tr a : history v tr = [] → a ∈ tr → about v a = false.
Proof.
  unfold history. intros Hnil Hin. destruct (about v a) eqn:Ha; [|done].
  assert (a ∈ filter (λ b, about v b) tr) as Hf.
  { apply list_elem_of_filter. split; [by rewrite Ha|done]. }
  rewrite Hnil in Hf. by apply elem_of_nil in Hf.
Qed.

Section once.
Context {S : Type} (visitor : Visitor.t S).
Context (g : Graph) (if_push : option (E → Graph → bool)) (forward : bool).
Context (sources : list V) (pmap : gmap V Color) (vis0 : S).
Hypothesis sources_NoDup : NoDup sources.
Hypothesis pmap_white : all_white pmap.

Local Abbreviation loop_head fuel :=
  (while_stack visitor g if_push forward fuel (initial visitor g sources pmap vis0)).

Lemma discovered_once fuel : NoDup (discovered (trace (loop_head fuel))).
Proof.
  apply discovered_NoDup. intros v.
  destruct (vertex_at_head visitor g if_push forward sources pmap vis0
              sources_NoDup pmap_white fuel v) as (ph & Hh & _).
  rewrite (occurrences_history v), Hh by (simpl; by apply bool_decide_eq_true_2).
  apply script_discovered, is_push_push_of.
Qed.

Lemma examined_once fuel : NoDup (examined (trace (loop_head fuel))).
Proof.
  destruct (examined_brackets visitor g if_push forward sources pmap vis0 fuel)
    as (<- & _ & _).
  by destruct (lifecycle_at_head visitor g if_push forward sources pmap vis0
                 sources_NoDup pmap_white fuel) as [_ _ _ _ Hpop _ _ _].
Qed.

End once.

(** ** Breadth-first order *)

Section distance_facts.
Context (g : Graph) (forward : bool) (sources : list V).

Local Abbreviation within := (within g forward sources).
Local Abbreviation at_distance := (at_distance g forward sources).
Local Abbreviation level_ordered := (level_ordered g forward sources).

Lemma within_mono n m v : within n v → n ≤ m → within m v.
Proof.
  intros H. revert m. induction H as [s n Hs|u e n Hu IH He]; intros m Hle.
  - by apply within_source.
  - destruct m as [|m]; [lia|]. apply (within_edge _ _ _ u); [|done]. apply IH. lia.
Qed.

Lemma within_zero v : within 0 v → v ∈ sources.
Proof. by inversion 1. Qed.

Lemma within_succ n v :
  within (Datatypes.S n) v →
  v ∈ sources ∨ ∃ u e, within n u ∧ e ∈ _out_edges g forward u
                       ∧ v = _target g forward e.
Proof.
  inversion 1 as [s n' Hs|u e n' Hu He]; subst; [by left|].
  right. by exists u, e.
Qed.

Lemma at_distance_unique n m v : at_distance n v → at_distance m v → n = m.
Proof. intros [Hn Hn'] [Hm Hm']. specialize (Hn' m Hm). specialize (Hm' n Hn). lia. Qed.

Lemma at_distance_closer k d u v n :
  at_distance k u → k ≤ d → at_distance d v → within n v → within n u.
Proof.
  intros [Hu _] Hle [_ Hv] Hn. apply (within_mono k); [done|].
  specialize (Hv n Hn). lia.
Qed.

Lemma level_ordered_inv l :
  level_ordered l →
  ∀ l1 u l2 v l3 n, l = l1 ++ u :: l2 ++ v :: l3 → within n v → within n u.
Proof.
  induction 1 as [|l x Hl IH Hx]; intros l1 u l2 v l3 n Heq Hn.
  - by destruct l1.
  - apply snoc_eq_app in Heq as [(Hnil & _ & _)|(post & Hpost & Hl1)].
    { by destruct l2. }
    symmetry in Hpost.
    apply snoc_eq_app in Hpost as [(_ & -> & ->)|(l3' & -> & ->)].
    + apply Hx; [|done]. rewrite Hl1, elem_of_app, elem_of_cons. auto.
    + by apply (IH l1 u l2 v l3').
Qed.
End distance_facts.

Section levels.
Context {S : Type} (visitor : Visitor.t S).
Context (g : Graph) (if_push : option (E → Graph → bool)) (forward : bool).
Context (sources : list V) (pmap : gmap V Color) (vis0 : S).
Hypothesis sources_NoDup : NoDup sources.
Hypothesis pmap_white : all_white pmap.
Hypothesis no_filter : ∀ e, _if_push if_push e g = true.

Local Abbreviation LInv := (level_inv (S:=S) g forward sources).

Lemma level_source (st : State S) done s :
  LInv (at_sources done) st →
  LInv (at_sources (done ++ [s])) (add_source visitor g st s).
Proof.
  intros [Hst Hex]. unfold level_inv. unfold_engine.
  rewrite !examined_app, Hst, Hex. done.
Qed.

Lemma level_loop (st : State S) :
  LInv (at_sources sources) st → reach_inv g forward sources (at_sources sources) st →
  LInv at_head st.
Proof.
  intros [Hst Hex] [_ _ _ Hseen _].
  exists 0, (reverse sources), []. rewrite Hst, Hex, app_nil_r.
  split; [done|]. split.
  { apply Forall_forall. intros x Hx. rewrite elem_of_reverse in Hx. split.
    - by apply within_source.
    - intros; lia. }
  split; [constructor|]. split.
  { intros w Hw%within_zero. by apply Hseen. }
  split.
  { intros v Hv. by apply elem_of_nil in Hv. }
  split; [constructor|done].
Qed.

Lemma level_pop (st : State S) u rest :
  LInv at_head st → lifecycle_inv g if_push sources pmap at_head st →
  reach_inv g forward sources at_head st → stack st = rest ++ [u] →
  LInv (at_edges u [])
    (call visitor g (examine_vertex u)
       (mkState rest (pmap_vcolor st) (vis st) (trace st ++ [stack_pop u]))).
Proof.
  intros (d & A & B & Hq & HA & HB & Hd & Hex & Hord & _)
         [_ Hv _ _ _ _ _ _] [_ _ Hblack Hsrc _] Hstack.
  rewrite Hstack, reverse_snoc in Hq.
  assert (∀ d', d ≤ d' → at_distance g forward sources d' u →
                level_ordered g forward sources (examined (trace st) ++ [u])
                ∧ ∀ v, v ∈ examined (trace st) ++ [u] →
                       ∃ k, k ≤ d' ∧ at_distance g forward sources k v) as Hnew.
  { intros d' Hle Hu. split.
    - apply level_ordered_snoc; [done|]. intros x n Hx Hn.
      destruct (Hex x Hx) as (k & Hk & Hkx).
      apply (at_distance_closer g forward sources k d' x u); [done|lia|done..].
    - intros v [Hin| ->%list_elem_of_singleton]%elem_of_app.
      + destruct (Hex v Hin) as (k & Hk & Hkv). exists k. split; [lia|done].
      + by exists d'. }
  unfold level_inv. unfold_engine.
  rewrite !examined_app. simpl. rewrite app_nil_r.
  destruct A as [|a A'].
  - (* the level is exhausted: the next one begins *)
    simpl in Hq. destruct B as [|b B']; [done|]. injection Hq as <- Hrest.
    apply Forall_cons in HB as [Hu HB'].
    destruct (Hnew (Datatypes.S d) ltac:(lia) Hu) as [Hord' Hex'].
    exists (Datatypes.S d), B', []. rewrite app_nil_r.
    do 3 (split; [done || constructor|]). split; [|done].
    intros w [Hw|(u' & e & Hu' & He & ->)]%within_succ; [by apply Hsrc|].
    pose proof (Hd u' Hu') as Hseen.
    destruct (Hv u') as (ph & _ & Hph). destruct ph.
    + by destruct Hph.
    + destruct Hph as (_ & _ & _ & e' & He'). by rewrite no_filter in He'.
    + destruct Hph as (_ & Hin & _). exfalso.
      rewrite Hstack in Hin.
      assert (u' ∈ u :: B') as Hin'.
      { rewrite <- Hrest, elem_of_cons, elem_of_reverse.
        rewrite elem_of_app, list_elem_of_singleton in Hin. tauto. }
      assert (at_distance g forward sources (Datatypes.S d) u') as [_ Hmin].
      { apply elem_of_cons in Hin' as [->|Hin']; [done|].
        by apply (proj1 (Forall_forall _ _) HB'). }
      specialize (Hmin d Hu'). lia.
    + by destruct Hph as (_ & _ & ?).
    + destruct Hph as (Hb & _). by apply (Hblack u').
  - simpl in Hq. injection Hq as <- Hrest.
    apply Forall_cons in HA as [Hu HA'].
    destruct (Hnew d ltac:(lia) Hu) as [Hord' Hex'].
    by exists d, A', B.
Qed.

Lemma level_edge (st : State S) u done e :
  LInv (at_edges u done) st → e ∈ _out_edges g forward u →
  LInv (at_edges u (done ++ [e])) (visit_edge visitor g if_push forward st e).
Proof.
  intros (d & A & B & Hq & HA & HB & Hd & Hex & Hord & Hu) He. unfold visit_edge.
  change (pmap_vcolor (call visitor g (examine_edge e) st)) with (pmap_vcolor st).
  destruct (pmap_get (pmap_vcolor st) (_target g forward e)) eqn:Hcol.
  - rewrite no_filter. unfold level_inv. unfold_engine.
    rewrite !examined_app. simpl. rewrite !app_nil_r.
    exists d, A, (B ++ [_target g forward e]).
    split; [by rewrite reverse_cons, Hq, app_assoc|].
    split; [done|]. split.
    { apply Forall_app. split; [done|]. apply Forall_singleton. split.
      - apply (within_edge _ _ _ u); [by destruct Hu|done].
      - intros m Hm. destruct (decide (m ≤ d)) as [Hle|]; [|lia].
        apply (within_mono _ _ _ _ d) in Hm; [|done].
        apply Hd in Hm. done. }
    split; [|done]. intros w Hw. apply pmap_set_seen; auto.
  - unfold level_inv. unfold_engine.
    rewrite !examined_app. simpl. rewrite !app_nil_r. by exists d, A, B.
  - unfold level_inv. unfold_engine.
    rewrite !examined_app. simpl. rewrite !app_nil_r. by exists d, A, B.
Qed.

Lemma level_finish (st : State S) u done :
  LInv (at_edges u done) st →
  LInv at_head (call visitor g (finish_vertex u) (setitem u BLACK st)).
Proof.
  intros (d & A & B & Hq & HA & HB & Hd & Hex & Hord & Hu).
  unfold level_inv. unfold_engine.
  rewrite !examined_app. simpl. rewrite !app_nil_r.
  exists d, A, B. do 3 (split; [done|]). split; [|done].
  intros w Hw. apply pmap_set_seen; auto.
Qed.

(** The examined vertices are in breadth-first order at every loop head. *)
Lemma level_at_head fuel :
  LInv at_head (while_stack visitor g if_push forward fuel
                  (initial visitor g sources pmap vis0)).
Proof.
  enough (lifecycle_inv g if_push sources pmap at_head
            (while_stack visitor g if_push forward fuel
               (initial visitor g sources pmap vis0))
          ∧ reach_inv g forward sources at_head
              (while_stack visitor g if_push forward fuel
                 (initial visitor g sources pmap vis0))
          ∧ LInv at_head
              (while_stack visitor g if_push forward fuel
                 (initial visitor g sources pmap vis0))) by tauto.
  apply (engine_rule _ _ _ _ _ _ _
           (λ pt st, lifecycle_inv g if_push sources pmap pt st
                     ∧ reach_inv g forward sources pt st
                     ∧ LInv pt st)).
  - split; [by apply lifecycle_enter|]. split; [by apply reach_enter|]. done.
  - intros st done s (H1 & H2 & H3) Hrest.
    split; [by apply lifecycle_source|]. split; [by apply reach_source|].
    by apply level_source.
  - intros st (H1 & H2 & H3).
    split; [by apply lifecycle_loop|]. split; [by apply reach_loop|].
    by apply level_loop.
  - intros st u rest (H1 & H2 & H3) Hst.
    split; [by apply lifecycle_pop|]. split; [by apply reach_pop|].
    by apply level_pop.
  - intros st u done e (H1 & H2 & H3) [rest Hrest].
    assert (e ∈ _out_edges g forward u) as He.
    { rewrite Hrest, elem_of_app, elem_of_cons. auto. }
    split; [by apply lifecycle_edge|]. split; [by apply reach_edge|].
    by apply level_edge.
  - intros st u (H1 & H2 & H3).
    split; [by eapply lifecycle_finish|].
    split; [by apply reach_finish|].
    by eapply level_finish.
Qed.
End levels.

Section expansion.
Context {S : Type} (visitor : Visitor.t S).
Context (g : Graph) (if_push : option (E → Graph → bool)) (forward : bool).
Context (sources : list V) (pmap : gmap V Color) (vis0 : S).

(** The vertices pushed on discovery are the far endpoints of the tree
    edges that the filter accepts. *)
Lemma pushed_left_accepted fuel :
  let tr := trace (while_stack visitor g if_push forward fuel
                     (initial visitor g sources pmap vis0)) in
  pushed_left tr
  = _target g forward <$> filter (λ e, _if_push if_push e g = true) (tree_edges tr).
Proof.
  apply (engine_rule _ _ _ _ _ _ _
           (λ _ st,
              pushed_left (trace st)
              = _target g forward
                  <$> filter (λ e, _if_push if_push e g = true) (tree_edges (trace st)))).
  - done.
  - intros st done s Hst _. unfold_engine.
    rewrite !pushed_left_app, !tree_edges_app. simpl. by rewrite !app_nil_r.
  - done.
  - intros st u rest Hst _. unfold_engine.
    rewrite !pushed_left_app, !tree_edges_app. simpl. by rewrite !app_nil_r.
  - intros st u done e Hst _. unfold visit_edge.
    destruct (pmap_get _ _); [destruct (_if_push _ _ _) eqn:Hp|..]; unfold_engine;
      rewrite !pushed_left_app, !tree_edges_app; simpl;
      rewrite ?app_nil_r, ?filter_app, ?fmap_app, ?filter_cons, ?filter_nil, Hst.
    + by rewrite decide_True.
    + rewrite decide_False by (by rewrite Hp). simpl. by rewrite app_nil_r.
    + done.
    + done.
  - intros st u Hst. unfold_engine.
    rewrite !pushed_left_app, !tree_edges_app. simpl. by rewrite !app_nil_r.
Qed.
End expansion.

(** * Main results *)

(** ** Order, filtering, direction and callbacks *)

(** C1 (amended): newly discovered vertices are pushed on the left end of
    the work list and vertices to examine are popped from the opposite,
    right end.  At every loop head the vertices examined so far, followed
    by the work list read from its right end, are the sources in reverse
    iteration order followed by the vertices pushed on discovery, in the
    order of their discovery; a completed run therefore examines the
    sources (last one first) and then every pushed vertex first-in
    first-out, and without a filter the pushed vertices are exactly the
    discovered non-source vertices in discovery order.  When the search
    starts from a source set and an all-unvisited colour map, and the
    filter is absent or accepts every edge, this order is breadth-first
    level order: a vertex examined before another one is reached from the
    sources within every number of edges within which the other one is. *)
Theorem work_list_is_fifo {S} (visitor : Visitor.t S) g if_push forward
    sources pmap vis0 fuel :
  (∀ (v y : V) d,
     deque.pop (deque.appendleft v (d ++ [y])) = Some (y, deque.appendleft v d))
  ∧ (let st := while_stack visitor g if_push forward fuel
                 (initial visitor g sources pmap vis0) in
     examined (trace st) ++ reverse (stack st)
     = reverse sources ++ pushed_left (trace st))
  ∧ (∀ st, breadth_first_search_graph visitor g if_push forward sources pmap vis0 fuel
           = Some st →
       examined (trace st) = reverse sources ++ pushed_left (trace st))
  ∧ (∀ st, breadth_first_search_graph visitor g None forward sources pmap vis0 fuel
           = Some st →
       discovered (trace st) = sources ++ pushed_left (trace st)
       ∧ examined (trace st) = reverse sources ++ pushed_left (trace st))
  ∧ (NoDup sources → all_white pmap → (∀ e, _if_push if_push e g = true) →
     let st := while_stack visitor g if_push forward fuel
                 (initial visitor g sources pmap vis0) in
     ∀ l1 u l2 v l3 n,
       examined (trace st) = l1 ++ u :: l2 ++ v :: l3 →
       within g forward sources n v → within g forward sources n u).
Proof.
  split; [intros; apply pop_appendleft|].
  split; [apply examined_fifo|].
  split; [|split].
  - unfold breadth_first_search_graph. intros st.
    pose proof (examined_fifo visitor g if_push forward sources pmap vis0 fuel) as H.
    destruct (stack _); [|done]. intros [= <-].
    by rewrite app_nil_r in H.
  - unfold breadth_first_search_graph. intros st.
    pose proof (examined_fifo visitor g None forward sources pmap vis0 fuel) as H.
    pose proof (discovered_unfiltered visitor g forward sources pmap vis0 fuel) as H'.
    simpl in H'. destruct (stack _); [|done]. intros [= <-].
    by rewrite app_nil_r in H.
  - intros Hnd Hwhite Hall st.
    destruct (level_at_head visitor g if_push forward sources pmap vis0
                Hnd Hwhite Hall fuel) as (d & A & B & _ & _ & _ & _ & _ & Hord & _).
    by apply level_ordered_inv.
Qed.

Lemma work_list_is_fifo_witness :
  NoDup [0] ∧ all_white (∅ : gmap V Color)
  ∧ (∀ e, _if_push None e diamond = true)
  ∧ examined (trace (while_stack DefaultBreadthFirstSearchVisitor diamond None true 4
                       (initial DefaultBreadthFirstSearchVisitor diamond [0] ∅ ())))
    = [0] ++ 1 :: [2] ++ 3 :: []
  ∧ within diamond true [0] 2 3
  ∧ within diamond true [0] 2 1.
Proof.
  assert (within diamond true [0] 1 1) as H1.
  { change 1 with (_target diamond true 0) at 2.
    apply (within_edge diamond true [0] 0 0 0).
    - apply within_source. by left.
    - by left. }
  assert (within diamond true [0] 2 3) as H3.
  { change 3 with (_target diamond true 2).
    apply (within_edge diamond true [0] 1 2 1); [exact H1|]. by left. }
  split; [apply NoDup_singleton|]. split; [apply all_white_empty|].
  split; [done|]. split; [reflexivity|]. split; [exact H3|].
  destruct (work_list_is_fifo DefaultBreadthFirstSearchVisitor diamond None true
              [0] ∅ () 4) as (_ & _ & _ & _ & H).
  apply (H (NoDup_singleton 0) all_white_empty (λ e, eq_refl) [0] 1 [2] 3 [] 2).
  - reflexivity.
  - exact H3.
Defined.

(** C1 (as stated) fails: on the graph 0 → 1, 0 → 2, 1 → 3 searched from 0,
    vertex 1 is examined right after 0, although 2 was discovered later
    than 1 and is still waiting. *)
Lemma most_recent_first_fails :
  ¬ (∀ g sources pmap fuel st,
       breadth_first_search_graph DefaultBreadthFirstSearchVisitor g None true
         sources pmap () fuel = Some st →
       ∀ pre u post, trace st = pre ++ vis_call (examine_vertex u) :: post →
         most_recent_pending pre = Some u).
Proof.
  intros H.
  destruct (breadth_first_search_graph DefaultBreadthFirstSearchVisitor diamond None
              true [0] ∅ () 4) as [st|] eqn:Hrun; [|by vm_compute in Hrun].
  specialize (H diamond [0] ∅ 4 st Hrun (take 18 (trace st)) 1 (drop 19 (trace st))).
  vm_compute in Hrun. injection Hrun as <-.
  vm_compute in H. by specialize (H eq_refl).
Qed.

(** C6: on an edge whose far endpoint is unvisited and which the filter
    rejects, the engine reports [examine_edge] and [tree_edge], marks the
    far endpoint in-progress and reports [discover_vertex]; the work list
    is left as it was, and this is the only difference with an accepted
    edge. *)
Theorem filtered_edge_is_still_reported {S} (visitor : Visitor.t S) g if_push forward
    (st : State S) (e : E) :
  pmap_get (pmap_vcolor st) (_target g forward e) = WHITE →
  _if_push if_push e g = false →
  let v := _target g forward e in
  let st' := visit_edge visitor g if_push forward st e in
  trace st' = trace st ++ [vis_call (examine_edge e); vis_call (tree_edge e);
                           pmap_setitem v GRAY; vis_call (discover_vertex v)]
  ∧ vis st' = dispatch visitor (discover_vertex v) g
                (dispatch visitor (tree_edge e) g
                   (dispatch visitor (examine_edge e) g (vis st)))
  ∧ pmap_vcolor st' = pmap_set (pmap_vcolor st) v GRAY
  ∧ pmap_get (pmap_vcolor st') v = GRAY
  ∧ stack st' = stack st
  ∧ visit_edge visitor g None forward st e = appendleft v st'.
Proof.
  intros Hwhite Hreject. unfold visit_edge. simpl.
  change (pmap_vcolor (call visitor g (examine_edge e) st)) with (pmap_vcolor st).
  rewrite Hwhite, Hreject. unfold_engine.
  rewrite <- !app_assoc. repeat split.
  unfold pmap_get, pmap_set. by rewrite lookup_insert_eq.
Qed.

Lemma filtered_edge_is_still_reported_witness :
  let st := initial DefaultBreadthFirstSearchVisitor diamond [0] ∅ () in
  let reject := Some (λ (_ : E) (_ : Graph), false) in
  let st' := visit_edge DefaultBreadthFirstSearchVisitor diamond reject true st 0 in
  trace st' = trace st ++ [vis_call (examine_edge 0); vis_call (tree_edge 0);
                           pmap_setitem 1 GRAY; vis_call (discover_vertex 1)]
  ∧ stack st' = [0].
Proof.
  intros st reject st'.
  destruct (filtered_edge_is_still_reported DefaultBreadthFirstSearchVisitor diamond
              reject true st 0) as (Ht & _ & _ & _ & Hs & _);
    [reflexivity|reflexivity|].
  split; [exact Ht|exact Hs].
Defined.

(** C7: with [forward=False] the engine iterates the incoming edges of
    each examined vertex and classifies an edge by the colour of its source
    endpoint, so that the run is the forward run on the graph with every
    edge turned around; with [forward=True] it iterates outgoing edges and
    looks at target endpoints. *)
Theorem forward_selects_direction {S} (visitor : Visitor.t S) g if_push
    sources pmap vis0 fuel :
  (_out_edges g true = out_edges g ∧ _target g true = target g)
  ∧ (_out_edges g false = in_edges g ∧ _target g false = source g)
  ∧ (∀ forward u st,
       visit_vertex visitor g if_push forward u st
       = call visitor g (finish_vertex u)
           (setitem u BLACK
              (foldl (visit_edge visitor g if_push forward)
                 (call visitor g (examine_vertex u) st)
                 (if forward then out_edges g u else in_edges g u))))
  ∧ (∀ forward st e, ∃ t,
       trace (visit_edge visitor g if_push forward st e)
       = trace st
         ++ vis_call (examine_edge e)
         :: vis_call (classify (pmap_get (pmap_vcolor st)
                                  (if forward then target g e else source g e)) e)
         :: t)
  ∧ breadth_first_search_graph visitor g if_push false sources pmap vis0 fuel
    = breadth_first_search_graph (visitor_on g visitor) (transpose g)
        (filter_on g <$> if_push) true sources pmap vis0 fuel.
Proof.
  split; [done|]. split; [done|]. split; [by intros []|]. split.
  - intros forward st e. unfold visit_edge.
    change (pmap_vcolor (call visitor g (examine_edge e) st)) with (pmap_vcolor st).
    replace (_target g forward e) with (if forward then target g e else source g e)
      by by destruct forward.
    destruct (pmap_get _ _); [destruct (_if_push _ _ _)|..]; unfold_engine;
      rewrite <- ?app_assoc; simpl; by eexists.
  - unfold breadth_first_search_graph.
    by rewrite initial_transpose, while_stack_transpose.
Qed.

(** C10: no run of [breadth_first_search_graph] or [breadth_first_search]
    ever calls [non_tree_edge]; an edge whose far endpoint is already
    discovered is reported by [examine_edge] followed by [gray_target] or
    [black_target] and nothing else. *)
Theorem non_tree_edge_is_never_called {S} (visitor : Visitor.t S) g if_push forward
    pmap vis0 fuel e :
  (∀ sources,
     vis_call (non_tree_edge e)
     ∉ trace (while_stack visitor g if_push forward fuel
                (initial visitor g sources pmap vis0)))
  ∧ (∀ sources st,
       breadth_first_search_graph visitor g if_push forward sources pmap vis0 fuel
       = Some st → vis_call (non_tree_edge e) ∉ trace st)
  ∧ (∀ s st,
       breadth_first_search visitor g if_push forward s pmap vis0 fuel = Some st →
       vis_call (non_tree_edge e) ∉ trace st)
  ∧ (∀ st e',
       pmap_get (pmap_vcolor st) (_target g forward e') ≠ WHITE →
       trace (visit_edge visitor g if_push forward st e')
       = trace st
         ++ [vis_call (examine_edge e');
             vis_call (match pmap_get (pmap_vcolor st) (_target g forward e') with
                       | BLACK => black_target e'
                       | _ => gray_target e'
                       end)]).
Proof.
  assert (∀ sources st,
            breadth_first_search_graph visitor g if_push forward sources pmap vis0 fuel
            = Some st → vis_call (non_tree_edge e) ∉ trace st) as Hgraph.
  { intros sources st. unfold breadth_first_search_graph.
    pose proof (trace_no_non_tree_edge visitor g if_push forward sources pmap vis0
                  fuel e) as H.
    destruct (stack _); [|done]. by intros [= <-]. }
  split; [intros; apply trace_no_non_tree_edge|].
  split; [done|]. split.
  - intros s st. unfold breadth_first_search. apply Hgraph.
  - intros st e' Hcol. unfold visit_edge.
    change (pmap_vcolor (call visitor g (examine_edge e') st)) with (pmap_vcolor st).
    destruct (pmap_get _ _); [done|..]; unfold_engine; by rewrite <- app_assoc.
Qed.

(** C3: in the record of any run, whatever the graph, the colour map and
    the visitor, every [examine_edge(e)] is immediately followed by the one
    classification callback that the colour of the far endpoint of [e]
    selects at that moment ([tree_edge] for unvisited, [gray_target] for
    in-progress, [black_target] for finished), and no classification
    callback occurs anywhere else. *)
Theorem examined_edge_classified_once {S} (visitor : Visitor.t S) g if_push forward
    sources pmap vis0 fuel :
  let tr := trace (while_stack visitor g if_push forward fuel
                     (initial visitor g sources pmap vis0)) in
  (∀ pre e post,
     tr = pre ++ vis_call (examine_edge e) :: post →
     ∃ post',
       post = vis_call (classify (pmap_get (replay pmap pre) (_target g forward e)) e)
              :: post')
  ∧ (∀ pre c post,
       tr = pre ++ vis_call c :: post → is_classification c = true →
       ∃ pre' e,
         pre = pre' ++ [vis_call (examine_edge e)]
         ∧ c = classify (pmap_get (replay pmap pre') (_target g forward e)) e).
Proof.
  intros tr.
  pose proof (trace_paired visitor g if_push forward sources pmap vis0 fuel) as Hp.
  split.
  - by apply paired_examine_edge.
  - by apply paired_classification.
Qed.

(** C8: [breadth_first_search(s, g, ...)] is the run of
    [breadth_first_search_graph] on the one source [s]: the same colour
    map, the same visitor state, the same record of writes and calls. *)
Theorem single_source_is_graph_search {S} (visitor : Visitor.t S) g if_push forward
    s pmap vis0 fuel :
  breadth_first_search visitor g if_push forward s pmap vis0 fuel
  = breadth_first_search_graph visitor g if_push forward [s] pmap vis0 fuel.
Proof. unfold breadth_first_search. by rewrite elements_singleton. Qed.

(** ** Runs from an all-unvisited colour map *)

(** C2 (amended): on a finite graph, with a source set, a colour map in
    which every vertex is unvisited and an edge filter that is absent or
    accepts every edge, the search returns, and then every vertex reachable
    from a source has been written in-progress and then finished, exactly
    once each, with one [discover_vertex] and one [finish_vertex] call,
    while every vertex not reachable from a source is still unvisited and
    was never touched. *)
Theorem reachable_vertices_finished_once {S} (visitor : Visitor.t S) g if_push forward
    sources pmap vis0 fuel :
  closed g forward → (∀ s, s ∈ sources → s ∈ vertices g) →
  NoDup sources → all_white pmap →
  (∀ e, _if_push if_push e g = true) →
  length (vertices g) ≤ fuel →
  ∃ st,
    breadth_first_search_graph visitor g if_push forward sources pmap vis0 fuel = Some st
    ∧ ∀ v,
        (reachable g forward sources v →
           pmap_get (pmap_vcolor st) v = BLACK
           ∧ writes v (trace st) = [GRAY; BLACK]
           ∧ occurrences (vis_call (discover_vertex v)) (trace st) = 1
           ∧ occurrences (vis_call (finish_vertex v)) (trace st) = 1
           ∧ history v (trace st) = script v Closed (push_of sources v))
        ∧ (¬ reachable g forward sources v →
             pmap_get (pmap_vcolor st) v = WHITE
             ∧ writes v (trace st) = []
             ∧ history v (trace st) = []).
Proof.
  intros Hclosed Hsrc Hnd Hwhite Hall Hfuel.
  eexists. split; [by apply graph_search_returns|].
  pose proof (while_stack_empties visitor g if_push forward sources pmap vis0
                Hclosed Hsrc Hnd Hwhite fuel Hfuel) as Hempty.
  intros v.
  pose proof (black_iff_reachable visitor g if_push forward sources pmap vis0
                Hnd Hwhite fuel v Hempty Hall) as Hiff.
  destruct (vertex_at_exit visitor g if_push forward sources pmap vis0
              Hnd Hwhite fuel v Hempty Hall) as [[Hc Hh]|[Hc Hh]].
  - split.
    + intros Hr%Hiff. by rewrite Hc in Hr.
    + intros _. by rewrite writes_history, Hh.
  - split.
    + intros _. split; [done|].
      pose proof (is_push_push_of sources v) as Hp.
      destruct (script_closed_calls v _ Hp) as (Hd & _ & Hf).
      rewrite writes_history, Hh, script_writes by done.
      rewrite (occurrences_history v (vis_call (discover_vertex v))), Hh
        by (simpl; by apply bool_decide_eq_true_2).
      rewrite (occurrences_history v (vis_call (finish_vertex v))), Hh
        by (simpl; by apply bool_decide_eq_true_2).
      done.
    + intros Hr. destruct Hr. by apply Hiff.
Qed.

Lemma reachable_vertices_finished_once_witness :
  ∃ st,
    breadth_first_search_graph DefaultBreadthFirstSearchVisitor diamond None true
      [0] ∅ () 4 = Some st
    ∧ ∀ v,
        (reachable diamond true [0] v →
           pmap_get (pmap_vcolor st) v = BLACK
           ∧ writes v (trace st) = [GRAY; BLACK]
           ∧ occurrences (vis_call (discover_vertex v)) (trace st) = 1
           ∧ occurrences (vis_call (finish_vertex v)) (trace st) = 1
           ∧ history v (trace st) = script v Closed (push_of [0] v))
        ∧ (¬ reachable diamond true [0] v →
             pmap_get (pmap_vcolor st) v = WHITE
             ∧ writes v (trace st) = []
             ∧ history v (trace st) = []).
Proof.
  apply (reachable_vertices_finished_once DefaultBreadthFirstSearchVisitor diamond
           None true [0] ∅ () 4).
  - apply closedb_closed. reflexivity.
  - intros s ->%list_elem_of_singleton. by left.
  - apply NoDup_singleton.
  - apply all_white_empty.
  - intros e. reflexivity.
  - simpl. lia.
Defined.

(** C4: in a run from a source set that starts with every vertex
    unvisited, at every turn of the main loop, every colour the engine has
    written is the successor, in the order unvisited, in-progress,
    finished, of the colour the vertex has at that moment; a vertex is
    therefore written in-progress at most once and finished at most once,
    in this order, and never moved backward. *)
Theorem colours_only_advance {S} (visitor : Visitor.t S) g if_push forward
    sources pmap vis0 fuel :
  NoDup sources → all_white pmap →
  let tr := trace (while_stack visitor g if_push forward fuel
                     (initial visitor g sources pmap vis0)) in
  (∀ pre v c post,
     tr = pre ++ pmap_setitem v c :: post →
     next_color (pmap_get (replay pmap pre) v) = Some c)
  ∧ (∀ v, writes v tr = [] ∨ writes v tr = [GRAY] ∨ writes v tr = [GRAY; BLACK]).
Proof.
  intros Hnd Hwhite tr. split.
  - destruct (lifecycle_at_head visitor g if_push forward sources pmap vis0
                Hnd Hwhite fuel) as [_ _ _ Hadv _ _ _ _].
    by apply advancing_write_inv.
  - intros v. by apply writes_at_head.
Qed.

Lemma colours_only_advance_witness :
  let tr := trace (while_stack DefaultBreadthFirstSearchVisitor diamond None true 2
                     (initial DefaultBreadthFirstSearchVisitor diamond [0] ∅ ())) in
  (∀ pre v c post,
     tr = pre ++ pmap_setitem v c :: post →
     next_color (pmap_get (replay ∅ pre) v) = Some c)
  ∧ (∀ v, writes v tr = [] ∨ writes v tr = [GRAY] ∨ writes v tr = [GRAY; BLACK]).
Proof.
  apply (colours_only_advance DefaultBreadthFirstSearchVisitor diamond None true
           [0] ∅ () 2).
  - apply NoDup_singleton.
  - apply all_white_empty.
Defined.

(** C9: on a finite graph, with a source set and a colour map in which
    every vertex is unvisited, the search returns with an empty work list
    after at most as many turns of the main loop as the graph has vertices;
    every vertex is pushed on the work list at most once, a source by the
    initialization and any other vertex right after it was written
    in-progress and reported discovered. *)
Theorem graph_search_terminates {S} (visitor : Visitor.t S) g if_push forward
    sources pmap vis0 fuel :
  closed g forward → (∀ s, s ∈ sources → s ∈ vertices g) →
  NoDup sources → all_white pmap →
  length (vertices g) ≤ fuel →
  ∃ st,
    breadth_first_search_graph visitor g if_push forward sources pmap vis0 fuel = Some st
    ∧ stack st = []
    ∧ length (popped (trace st)) ≤ length (vertices g)
    ∧ ∀ v,
        pushes v (trace st) ≤ 1
        ∧ ∃ ph, history v (trace st) = script v ph (push_of sources v).
Proof.
  intros Hclosed Hsrc Hnd Hwhite Hfuel.
  eexists. split; [by apply graph_search_returns|].
  split; [by apply while_stack_empties|].
  split; [by apply popped_bound|].
  intros v. split; [by apply pushed_at_most_once|].
  destruct (vertex_at_head visitor g if_push forward sources pmap vis0
              Hnd Hwhite fuel v) as (ph & Hh & _).
  by exists ph.
Qed.

Lemma graph_search_terminates_witness :
  ∃ st,
    breadth_first_search_graph DefaultBreadthFirstSearchVisitor diamond None true
      [0] ∅ () 4 = Some st
    ∧ stack st = []
    ∧ length (popped (trace st)) ≤ 4
    ∧ ∀ v,
        pushes v (trace st) ≤ 1
        ∧ ∃ ph, history v (trace st) = script v ph (push_of [0] v).
Proof.
  apply (graph_search_terminates DefaultBreadthFirstSearchVisitor diamond
           None true [0] ∅ () 4).
  - apply closedb_closed. reflexivity.
  - intros s ->%list_elem_of_singleton. by left.
  - apply NoDup_singleton.
  - apply all_white_empty.
  - simpl. lia.
Defined.

(** ** Ties in Dijkstra's relaxation *)

(** C5: on the graph with two parallel edges [e1], [e2] from [u] to [v],
    both of weight 1, [dijkstra_shortest_paths] from [u] ends with the
    predecessor map [{v: {e1, e2}}] and the distance map [{u: 0, v: 1}];
    in general, a relaxation that finds [candidate == distance[v]] adds
    the edge to [predecessor_map[v]] and changes neither the distances nor
    the priority structure. *)
Theorem dijkstra_keeps_tied_edges g weight u st e w :
  weight !! e = Some w →
  (dijkstra.distance (dijkstra.distance_map st) u + w)%Z
  = dijkstra.distance (dijkstra.distance_map st) (target g e) →
  dijkstra.dijkstra_shortest_paths parallel_edges 0 {[ 0 := 1%Z; 1 := 1%Z ]} ∅ ∅ 2
  = dijkstra.Done
      (dijkstra.mkState [] {[ 0 := 0%Z; 1 := 1%Z ]} {[ 1 := {[ 0; 1 ]} ]})
  ∧ ∃ st',
      dijkstra.relax g weight u st e = Some st'
      ∧ dijkstra.distance_map st' = dijkstra.distance_map st
      ∧ dijkstra.queue st' = dijkstra.queue st
      ∧ dijkstra.predecessor_map st'
        = <[target g e :=
              {[ e ]} ∪ dijkstra.predecessors (dijkstra.predecessor_map st) (target g e)]>
            (dijkstra.predecessor_map st)
      ∧ e ∈ dijkstra.predecessors (dijkstra.predecessor_map st') (target g e)
      ∧ ∀ e', e' ∈ dijkstra.predecessors (dijkstra.predecessor_map st) (target g e) →
              e' ∈ dijkstra.predecessors (dijkstra.predecessor_map st') (target g e).
Proof.
  intros Hw Htie. split; [by vm_compute|].
  unfold dijkstra.relax. rewrite Hw. simpl. rewrite Htie.
  rewrite Z.ltb_irrefl, Z.eqb_refl.
  eexists. split; [done|]. simpl. repeat split.
  - unfold dijkstra.predecessors at 1. rewrite lookup_insert_eq. simpl. set_solver.
  - intros e' He'. unfold dijkstra.predecessors at 1. rewrite lookup_insert_eq. simpl.
    set_solver.
Qed.

Lemma dijkstra_keeps_tied_edges_witness :
  let st := dijkstra.mkState [] {[ 0 := 0%Z; 1 := 1%Z ]} {[ 1 := {[ 0 ]} ]} in
  ∃ st',
    dijkstra.relax parallel_edges {[ 0 := 1%Z; 1 := 1%Z ]} 0 st 1 = Some st'
    ∧ dijkstra.distance_map st' = dijkstra.distance_map st
    ∧ 0 ∈ dijkstra.predecessors (dijkstra.predecessor_map st') 1
    ∧ 1 ∈ dijkstra.predecessors (dijkstra.predecessor_map st') 1.
Proof.
  intros st.
  destruct (dijkstra_keeps_tied_edges parallel_edges {[ 0 := 1%Z; 1 := 1%Z ]} 0 st 1 1%Z)
    as (_ & st' & Hrelax & Hdist & _ & _ & Hin & Hkeep); [reflexivity|reflexivity|].
  exists st'. split; [exact Hrelax|]. split; [exact Hdist|]. split; [|exact Hin].
  apply Hkeep. vm_compute. set_solver.
Defined.

(** C2 (as stated) fails when an edge filter rejects an edge: on the graph
    0 → 1, 0 → 2, 1 → 3 searched from 0 with a filter that rejects every
    edge, vertex 1 is reachable and discovered but never pushed, so it is
    left in-progress and never finished. *)
Lemma filtered_vertex_is_never_finished :
  ¬ (∀ g if_push sources pmap fuel,
       closed g true → (∀ s, s ∈ sources → s ∈ vertices g) →
       NoDup sources → all_white pmap → length (vertices g) ≤ fuel →
       ∃ st,
         breadth_first_search_graph DefaultBreadthFirstSearchVisitor g if_push true
           sources pmap () fuel = Some st
         ∧ ∀ v,
             (reachable g true sources v → pmap_get (pmap_vcolor st) v = BLACK)
             ∧ (¬ reachable g true sources v → pmap_get (pmap_vcolor st) v = WHITE)).
Proof.
  intros H.
  destruct (H diamond (Some (λ _ _, false)) [0] ∅ 4) as (st & Hrun & Hst).
  - apply closedb_closed. reflexivity.
  - intros s ->%list_elem_of_singleton. by left.
  - apply NoDup_singleton.
  - apply all_white_empty.
  - simpl. lia.
  - vm_compute in Hrun. injection Hrun as <-.
    destruct (Hst 1) as [Hblack _].
    assert (reachable diamond true [0] 1) as Hreach.
    { change 1 with (_target diamond true 0).
      apply (reachable_edge diamond true [0] 0 0).
      - apply reachable_source. by left.
      - by left. }
    apply Hblack in Hreach. by vm_compute in Hreach.
Qed.

(** * Further properties of the engine *)

(** X1: the initialization does not look at the colours: every source, at
    each of its occurrences and in iteration order, is written in-progress,
    reported by [discover_vertex] and appended to the work list, even if it
    was in-progress or finished before; the other vertices keep their
    colour. *)
Theorem initialization_ignores_colours {S} (visitor : Visitor.t S) g
    sources pmap vis0 :
  let st := initial visitor g sources pmap vis0 in
  stack st = sources
  ∧ trace st = flat_map source_actions sources
  ∧ discovered (trace st) = sources
  ∧ ∀ v, pmap_get (pmap_vcolor st) v
         = if decide (v ∈ sources) then GRAY else pmap_get pmap v.
Proof.
  unfold initial. simpl.
  rewrite add_sources_stack, add_sources_trace. simpl.
  split; [done|]. split; [done|]. split.
  - induction sources as [|s l IH]; [done|].
    change (flat_map source_actions (s :: l))
      with (source_actions s ++ flat_map source_actions l).
    by rewrite discovered_app, IH.
  - intros v. by rewrite add_sources_colour.
Qed.

(** X2: a vertex that does not read unvisited when the search starts, and
    is not a source, is a barrier: it keeps its colour, never enters the
    work list, and is never discovered, examined or finished. *)
Theorem seen_vertex_is_left_alone {S} (visitor : Visitor.t S) g if_push forward
    sources pmap vis0 fuel v :
  pmap_get pmap v ≠ WHITE → v ∉ sources →
  let st := while_stack visitor g if_push forward fuel
              (initial visitor g sources pmap vis0) in
  pmap_get (pmap_vcolor st) v = pmap_get pmap v
  ∧ (v ∉ stack st)
  ∧ history v (trace st) = []
  ∧ (vis_call (discover_vertex v) ∉ trace st)
  ∧ (vis_call (examine_vertex v) ∉ trace st)
  ∧ (vis_call (finish_vertex v) ∉ trace st).
Proof.
  intros Hseen Hsrc st.
  destruct (barrier_at_head visitor g if_push forward sources pmap vis0 v
              Hseen Hsrc fuel) as (Hc & Hs & Hh).
  do 3 (split; [done|]).
  repeat split; intros Hin; apply (history_nil_not_about v _ _ Hh) in Hin;
    simpl in Hin; by rewrite bool_decide_eq_true_2 in Hin.
Qed.

Lemma seen_vertex_is_left_alone_witness :
  let st := while_stack DefaultBreadthFirstSearchVisitor diamond None true 4
              (initial DefaultBreadthFirstSearchVisitor diamond [0] {[ 1 := BLACK ]} ()) in
  pmap_get (pmap_vcolor st) 1 = BLACK
  ∧ vis_call (discover_vertex 1) ∉ trace st.
Proof.
  intros st.
  destruct (seen_vertex_is_left_alone DefaultBreadthFirstSearchVisitor diamond None true
              [0] {[ 1 := BLACK ]} () 4 1) as (Hc & _ & _ & Hd & _).
  - by vm_compute.
  - by intros ?%list_elem_of_singleton.
  - split; [exact Hc|exact Hd].
Defined.

(** X3: on a finite graph the search returns whatever the colour map, the
    sources (repeated or not) and the filter: the work list is empty after
    at most as many turns of the main loop as there are source occurrences
    and vertices together. *)
Theorem search_terminates_from_any_colours {S} (visitor : Visitor.t S) g if_push
    forward sources pmap vis0 fuel :
  closed g forward → (∀ s, s ∈ sources → s ∈ vertices g) →
  length sources + length (vertices g) ≤ fuel →
  ∃ st,
    breadth_first_search_graph visitor g if_push forward sources pmap vis0 fuel = Some st
    ∧ stack st = []
    ∧ length (examined (trace st)) ≤ length sources + length (vertices g).
Proof.
  intros Hclosed Hsrc Hfuel.
  assert (stack (initial visitor g sources pmap vis0) = sources) as Hstack.
  { unfold initial. by rewrite add_sources_stack. }
  assert (remaining g (initial visitor g sources pmap vis0)
          ≤ length sources + length (vertices g)) as Hrem.
  { unfold remaining, white_count. rewrite Hstack.
    pose proof (length_filter
                  (λ v, pmap_get (pmap_vcolor (initial visitor g sources pmap vis0)) v
                        = WHITE) (vertices g)). lia. }
  destruct (while_stack_remaining visitor g if_push forward Hclosed fuel
              (initial visitor g sources pmap vis0)) as [Hempty Hlen].
  { by rewrite Hstack. }
  { lia. }
  exists (while_stack visitor g if_push forward fuel (initial visitor g sources pmap vis0)).
  split; [|split; [done|]].
  - unfold breadth_first_search_graph. by rewrite Hempty.
  - destruct (examined_brackets visitor g if_push forward sources pmap vis0 fuel)
      as (<- & _ & _).
    rewrite initial_popped in Hlen. simpl in Hlen. lia.
Qed.

Lemma search_terminates_from_any_colours_witness :
  ∃ st,
    breadth_first_search_graph DefaultBreadthFirstSearchVisitor diamond None true
      [1; 1] {[ 3 := GRAY ]} () 6 = Some st
    ∧ stack st = []
    ∧ length (examined (trace st)) ≤ 6.
Proof.
  apply (search_terminates_from_any_colours DefaultBreadthFirstSearchVisitor diamond
           None true [1; 1] {[ 3 := GRAY ]} () 6).
  - apply closedb_closed. reflexivity.
  - intros s [->|[->|[]%elem_of_nil]%elem_of_cons]%elem_of_cons; vm_compute;
      by repeat constructor.
  - simpl. lia.
Defined.

(** X4: a visitor that reads the colour map inside a callback sees the new
    colour: in any run, [discover_vertex(v)] comes directly after the write
    of in-progress to [v] and [finish_vertex(u)] directly after the write of
    finished to [u]. *)
Theorem callbacks_follow_the_write {S} (visitor : Visitor.t S) g if_push forward
    sources pmap vis0 fuel :
  let tr := trace (while_stack visitor g if_push forward fuel
                     (initial visitor g sources pmap vis0)) in
  (∀ pre v post,
     tr = pre ++ vis_call (discover_vertex v) :: post →
     (∃ pre', pre = pre' ++ [pmap_setitem v GRAY])
     ∧ pmap_get (replay pmap pre) v = GRAY)
  ∧ (∀ pre u post,
       tr = pre ++ vis_call (finish_vertex u) :: post →
       (∃ pre', pre = pre' ++ [pmap_setitem u BLACK])
       ∧ pmap_get (replay pmap pre) u = BLACK).
Proof.
  intros tr.
  pose proof (trace_announced visitor g if_push forward sources pmap vis0 fuel) as Ha.
  split.
  - intros pre v post Heq.
    destruct (announced_discover_inv _ Ha _ _ _ Heq) as [pre' ->].
    split; [by eexists|]. rewrite replay_app. simpl. apply pmap_get_set_eq.
  - intros pre u post Heq.
    destruct (announced_finish_inv _ Ha _ _ _ Heq) as [pre' ->].
    split; [by eexists|]. rewrite replay_app. simpl. apply pmap_get_set_eq.
Qed.

(** X5: between two turns of the main loop, the vertices taken from the
    work list, the vertices reported by [examine_vertex] and those reported
    by [finish_vertex] are the same sequence, and the edges reported by
    [examine_edge] are the adjacency lists of these vertices, one after the
    other, each in the order in which the graph iterates it. *)
Theorem edges_examined_in_adjacency_order {S} (visitor : Visitor.t S) g if_push forward
    sources pmap vis0 fuel :
  let tr := trace (while_stack visitor g if_push forward fuel
                     (initial visitor g sources pmap vis0)) in
  popped tr = examined tr
  ∧ finished tr = examined tr
  ∧ examined_edges tr = flat_map (_out_edges g forward) (examined tr).
Proof. apply examined_brackets. Qed.

(** X6: [discover_vertex] is reported once for each source occurrence, in
    iteration order, and then once for each [tree_edge], for its far
    endpoint and in the same order. *)
Theorem one_discovery_per_tree_edge {S} (visitor : Visitor.t S) g if_push forward
    sources pmap vis0 fuel :
  let tr := trace (while_stack visitor g if_push forward fuel
                     (initial visitor g sources pmap vis0)) in
  discovered tr = sources ++ (_target g forward <$> tree_edges tr).
Proof. apply discovered_tree_edges. Qed.

(** X7: from a source set and an all-unvisited colour map, no vertex is
    discovered twice, examined twice or finished twice, whatever the filter
    and even if the graph is infinite; in particular no vertex is the far
    endpoint of two tree edges. *)
Theorem no_vertex_twice {S} (visitor : Visitor.t S) g if_push forward
    sources pmap vis0 fuel :
  NoDup sources → all_white pmap →
  let tr := trace (while_stack visitor g if_push forward fuel
                     (initial visitor g sources pmap vis0)) in
  NoDup (discovered tr) ∧ NoDup (examined tr) ∧ NoDup (finished tr)
  ∧ NoDup (_target g forward <$> tree_edges tr).
Proof.
  intros Hnd Hwhite tr.
  pose proof (discovered_once visitor g if_push forward sources pmap vis0
                Hnd Hwhite fuel) as Hd.
  pose proof (examined_once visitor g if_push forward sources pmap vis0
                Hnd Hwhite fuel) as Hx.
  destruct (examined_brackets visitor g if_push forward sources pmap vis0 fuel)
    as (_ & Hf & _).
  split; [done|]. split; [done|]. split; [unfold tr; by rewrite Hf|].
  unfold tr.
  rewrite (discovered_tree_edges visitor g if_push forward sources pmap vis0 fuel) in Hd.
  by apply NoDup_app in Hd as (_ & _ & ?).
Qed.

Lemma no_vertex_twice_witness :
  let tr := trace (while_stack DefaultBreadthFirstSearchVisitor diamond None true 3
                     (initial DefaultBreadthFirstSearchVisitor diamond [0] ∅ ())) in
  NoDup (discovered tr) ∧ NoDup (examined tr) ∧ NoDup (finished tr)
  ∧ NoDup (_target diamond true <$> tree_edges tr).
Proof.
  apply (no_vertex_twice DefaultBreadthFirstSearchVisitor diamond None true [0] ∅ () 3).
  - apply NoDup_singleton.
  - apply all_white_empty.
Defined.



(** X9: from a source set and an all-unvisited colour map, without a
    filter, the vertices are examined in breadth-first order: a vertex
    examined before another one is reached from the sources within every
    number of edges within which the other one is. *)
Theorem examined_in_breadth_first_order {S} (visitor : Visitor.t S) g if_push forward
    sources pmap vis0 fuel :
  NoDup sources → all_white pmap → (∀ e, _if_push if_push e g = true) →
  let tr := trace (while_stack visitor g if_push forward fuel
                     (initial visitor g sources pmap vis0)) in
  ∀ l1 u l2 v l3 n,
    examined tr = l1 ++ u :: l2 ++ v :: l3 →
    within g forward sources n v → within g forward sources n u.
Proof.
  intros Hnd Hwhite Hall tr.
  destruct (level_at_head visitor g if_push forward sources pmap vis0
              Hnd Hwhite Hall fuel) as (d & A & B & _ & _ & _ & _ & _ & Hord & _).
  by apply level_ordered_inv.
Qed.

Lemma examined_in_breadth_first_order_witness :
  examined (trace (while_stack DefaultBreadthFirstSearchVisitor diamond None true 4
                     (initial DefaultBreadthFirstSearchVisitor diamond [0] ∅ ())))
  = [] ++ 0 :: [1] ++ 2 :: [3]
  ∧ within diamond true [0] 1 2
  ∧ within diamond true [0] 1 0.
Proof.
  assert (within diamond true [0] 1 2) as Hv.
  { change 2 with (_target diamond true 1).
    apply (within_edge diamond true [0] 0 1 0).
    - apply within_source. by left.
    - right. by left. }
  split; [reflexivity|]. split; [exact Hv|].
  apply (examined_in_breadth_first_order DefaultBreadthFirstSearchVisitor diamond
           None true [0] ∅ () 4 (NoDup_singleton 0) all_white_empty
           (λ e, eq_refl) [] 0 [1] 2 [3] 1).
  - reflexivity.
  - exact Hv.
Defined.

(** X10: the filter decides which discovered vertices are expanded: the
    vertices pushed on discovery are the far endpoints of the tree edges
    that the filter accepts, in order, so that a completed run examines the
    sources, last one first, and then exactly these vertices. *)
Theorem accepted_discoveries_are_expanded {S} (visitor : Visitor.t S) g if_push forward
    sources pmap vis0 fuel :
  (let tr := trace (while_stack visitor g if_push forward fuel
                      (initial visitor g sources pmap vis0)) in
   pushed_left tr
   = _target g forward <$> filter (λ e, _if_push if_push e g = true) (tree_edges tr))
  ∧ ∀ st,
      breadth_first_search_graph visitor g if_push forward sources pmap vis0 fuel
      = Some st →
      examined (trace st)
      = reverse sources
        ++ (_target g forward
              <$> filter (λ e, _if_push if_push e g = true) (tree_edges (trace st))).
Proof.
  pose proof (pushed_left_accepted visitor g if_push forward sources pmap vis0 fuel)
    as Hp.
  split; [done|]. intros st. unfold breadth_first_search_graph.
  pose proof (examined_fifo visitor g if_push forward sources pmap vis0 fuel) as Hx.
  simpl in Hp. destruct (stack _); [|done]. intros [= <-].
  by rewrite app_nil_r, Hp in Hx.
Qed.

(** * The graph builder of the tests *)

(** X11: once [add_node] has given a name a vertex other than 0, the name
    keeps this vertex: after any further calls of [add_node], for this or
    for other names, a call for the name returns the same vertex and adds
    no vertex to the graph. *)
Theorem add_node_keeps_non_zero_vertex {G} (add_vertex : G → V * G)
    (un : nat) (g : G) (d : gmap nat V) (u : V) (g1 : G) (d1 : gmap nat V)
    (names : list nat) :
  make_graph.add_node add_vertex un g d = (u, g1, d1) → u ≠ 0 →
  let '(g2, d2) := make_graph.add_nodes add_vertex names g1 d1 in
  make_graph.add_node add_vertex un g2 d2 = (u, g2, d2).
Proof.
  intros Hadd Hu.
  assert (d1 !! un = Some u) as Hd1.
  { unfold make_graph.add_node in Hadd.
    destruct (make_graph.falsy (d !! un)) eqn:Hf.
    - destruct (add_vertex g) as [u' g']. injection Hadd as <- <- <-.
      by rewrite lookup_insert_eq.
    - injection Hadd as <- <- <-. by destruct (d !! un) as [[|?]|]. }
  clear Hadd. unfold make_graph.add_nodes.
  revert g1 d1 Hd1. induction names as [|un' names IH]; intros g1 d1 Hd1; simpl.
  - unfold make_graph.add_node. rewrite Hd1. by destruct u.
  - destruct (make_graph.add_node add_vertex un' g1 d1) as [[u' g'] d'] eqn:Hadd.
    apply IH. unfold make_graph.add_node in Hadd.
    destruct (make_graph.falsy (d1 !! un')) eqn:Hf.
    + destruct (add_vertex g1) as [u'' g'']. injection Hadd as <- <- <-.
      destruct (decide (un' = un)) as [->|Hne].
      * rewrite Hd1 in Hf. by destruct u.
      * by rewrite lookup_insert_ne.
    + by injection Hadd as <- <- <-.
Qed.

Lemma add_node_keeps_non_zero_vertex_witness :
  let add_vertex := λ n : nat, (n, Datatypes.S n) in
  make_graph.add_node add_vertex 7 3 (<[5 := 2]> ∅) = (3, 4, <[7 := 3]> (<[5 := 2]> ∅))
  ∧ let '(g2, d2) := make_graph.add_nodes add_vertex [5; 9; 7] 4
                       (<[7 := 3]> (<[5 := 2]> ∅)) in
    make_graph.add_node add_vertex 7 g2 d2 = (3, g2, d2).
Proof.
  intros add_vertex. split; [reflexivity|].
  apply (add_node_keeps_non_zero_vertex add_vertex 7 3 (<[5 := 2]> ∅) 3 4
           (<[7 := 3]> (<[5 := 2]> ∅)) [5; 9; 7]).
  - reflexivity.
  - lia.
Defined.

